(** * ChessVar: a chess variant with hunter and falcon fairy pieces

    Shallow embedding of [ChessVar.py] and the properties of its move
    engine.  Python integers are [Z], square names and piece names are
    strings, the board dictionary is a finite map keyed by strings, and
    piece objects live in an object store so that two board slots can hold
    the same object. *)

From Stdlib Require Import ZArith List String Lia.
From stdpp Require Import gmap strings list pretty.

Open Scope Z_scope.

(** ** Python primitives used by the source *)

(** [range(a, b)]: the integers [a], [a+1], ..., [b-1]; empty when [b <= a]. *)
Definition py_range (a b : Z) : list Z := seqZ a (b - a).

(** [x in l] on a list of integers. *)
Definition py_in (x : Z) (l : list Z) : bool := existsb (Z.eqb x) l.

(** [s in l] on a list of strings. *)
Definition str_in (s : string) (l : list string) : bool :=
  existsb (String.eqb s) l.

(** [x / k == 1] with Python's true division on integers.  The quotient is
    the correctly rounded real quotient, which is [1.0] exactly when
    [x = k] (for [k > 0], any other integer is at least [1/k] away). *)
Definition div_is_one (x k : Z) : bool := x =? k.

(** Truth value of a string used as a condition: only [''] is false. *)
Definition truthy (s : string) : bool := negb (String.eqb s "").

(** [list.remove(x)] removes the first occurrence, [None] when there is
    none (Python raises [ValueError]). *)
Fixpoint list_remove (x : string) (l : list string) : option (list string) :=
  match l with
  | [] => None
  | y :: l' =>
      if String.eqb y x then Some l'
      else match list_remove x l' with
           | Some r => Some (y :: r)
           | None => None
           end
  end.

(** ** Pieces *)

Inductive Color := white | black.

Definition color_eqb (a b : Color) : bool :=
  match a, b with
  | white, white | black, black => true
  | _, _ => false
  end.

(** The eight piece classes of the source. *)
Inductive PieceClass :=
  PawnC | RookC | BishopC | KnightC | QueenC | KingC | HunterC | FalconC.

(** A piece object.  [_piece_name] is fixed by the class and [_color] by the
    constructor; [_first_move] is the only attribute that is ever assigned
    after construction (by [Pawn.valid_move]).  [Rook] and [Bishop] objects
    have no [_first_move] attribute; the field is never read for them. *)
Record Piece := mkPiece {
  piece_class : PieceClass;
  _color : Color;
  _first_move : bool
}.

Definition get_color (p : Piece) : Color := _color p.

Definition get_name (p : Piece) : string :=
  match piece_class p with
  | PawnC => "pawn" | RookC => "rook" | BishopC => "bishop"
  | KnightC => "knight" | QueenC => "queen" | KingC => "king"
  | HunterC => "hunter" | FalconC => "falcon"
  end.

(** [self._first_move = False] *)
Definition clear_first_move (self : Piece) : Piece :=
  mkPiece (piece_class self) (_color self) false.

Definition is_None {A} (o : option A) : bool :=
  match o with None => true | Some _ => false end.

Definition _edge_one : list Z := [0; 8; 16; 24; 32; 40; 48; 56].
Definition _edge_eight : list Z := [7; 15; 23; 31; 39; 47; 55; 63].

(** *** Pawn *)
Module Pawn.

(** One colour block of [Pawn.valid_move]: [fwd] is the single step,
    [fwd2] the double step, [diag] tells which capture steps the block
    allows, [foe] is the colour that may be captured, and [own_guard]
    is set for the one block that first returns [None] on an occupant of
    the pawn's own colour (black, not on an edge). *)
Definition block (self : Piece) (cur new : Z) (occ : option Piece)
    (fwd fwd2 : Z) (diag : bool) (foe : Color) (own_guard : bool)
    : option (list Z) * Piece :=
  if (fwd =? new) && is_None occ then
    (Some [new], clear_first_move self)
  else if (fwd2 =? new) && _first_move self && is_None occ then
    (Some [fwd; new], clear_first_move self)
  else
    match occ with
    | Some o =>
        if own_guard && color_eqb (get_color o) black then (None, self)
        else if diag then
          if color_eqb (get_color o) foe then
            (Some [new], clear_first_move self)
          else (None, self)
        else (None, self)
    | None => (None, self)
    end.

(** [Pawn.valid_move]; the second component is [self] after the call. *)
Definition valid_move (self : Piece) (current_location new_location : Z)
    (new_location_occupant : option Piece) : option (list Z) * Piece :=
  let cur := current_location in
  let new := new_location in
  let occ := new_location_occupant in
  if negb (py_in cur _edge_one) && negb (py_in cur _edge_eight) then
    match _color self with
    | black =>
        block self cur new occ (cur + 8) (cur + 16)
          ((cur + 7 =? new) || (cur + 9 =? new)) white true
    | white =>
        block self cur new occ (cur - 8) (cur - 16)
          ((cur - 7 =? new) || (cur - 9 =? new)) black false
    end
  else if py_in cur _edge_one && color_eqb (_color self) black then
    block self cur new occ (cur + 8) (cur + 16) (cur + 9 =? new) white false
  else if py_in cur _edge_eight && color_eqb (_color self) black then
    block self cur new occ (cur + 8) (cur + 16) (cur + 7 =? new) white false
  else if py_in cur _edge_one && color_eqb (_color self) white then
    block self cur new occ (cur - 8) (cur - 16) (cur - 7 =? new) black false
  else if py_in cur _edge_eight && color_eqb (_color self) white then
    block self cur new occ (cur - 8) (cur - 16) (cur - 9 =? new) black false
  else (None, self).

End Pawn.

(** *** Sliding pieces: shared loop shapes *)

(** [for location in range(lo, hi + 1): if cond(location): append]. *)
Definition collect (lo hi : Z) (cond : Z -> bool) : list Z :=
  filter (fun location => cond location = true) (py_range lo (hi + 1)).

(** The body shared by the eight row branches of [Rook.valid_move] and
    [Queen.valid_move]: both [if]s test that the destination is below the
    origin, so the second loop runs over an empty range. *)
Definition row_body (cur new : Z) : list Z :=
  (if cur >? new then py_range new (cur + 1) else []) ++
  (if new <? cur then py_range cur (new + 1) else []).

(** [lo <= cur <= hi and lo <= new <= hi] *)
Definition both_in (lo hi cur new : Z) : bool :=
  (lo <=? cur) && (cur <=? hi) && (lo <=? new) && (new <=? hi).

(** The chain of eight [elif]s over the fixed rows; [None] when no row
    holds both locations. *)
Definition row_chain (cur new : Z) : option (list Z) :=
  if both_in 0 7 cur new then Some (row_body cur new)
  else if both_in 8 15 cur new then Some (row_body cur new)
  else if both_in 16 23 cur new then Some (row_body cur new)
  else if both_in 24 31 cur new then Some (row_body cur new)
  else if both_in 32 39 cur new then Some (row_body cur new)
  else if both_in 40 47 cur new then Some (row_body cur new)
  else if both_in 48 55 cur new then Some (row_body cur new)
  else if both_in 56 63 cur new then Some (row_body cur new)
  else None.

(** *** Rook *)
Module Rook.

Definition valid_move (current_location new_location : Z)
    : option (list Z) :=
  let cur := current_location in
  let new := new_location in
  if (cur - new) mod 8 =? 0 then
    if cur <? new then
      Some (collect cur new (fun location => (cur - location) mod 8 =? 0))
    else if cur >? new then
      Some (collect new cur (fun location => (cur - location) mod 8 =? 0))
    else Some []
  else row_chain cur new.

End Rook.

(** *** Bishop *)
Module Bishop.

(** The loop of the multiple-of-7 branch: its [return] sits inside the
    loop body, so the list is returned at the end of the first
    iteration. *)
Definition first_iteration (lo hi cur : Z) : option (list Z) :=
  match py_range lo (hi + 1) with
  | [] => None
  | location :: _ =>
      Some (if Z.abs (location - cur) mod 7 =? 0 then [location] else [])
  end.

Definition valid_move (current_location new_location : Z)
    : option (list Z) :=
  let cur := current_location in
  let new := new_location in
  if (cur - new) mod 7 =? 0 then
    if cur >? new then first_iteration new cur cur
    else if new >? cur then first_iteration cur new cur
    else None
  else if (cur - new) mod 9 =? 0 then
    if cur >? new then
      Some (collect new cur (fun location => Z.abs (location - cur) mod 9 =? 0))
    else if new >? cur then
      Some (collect cur new (fun location => Z.abs (location - cur) mod 9 =? 0))
    else None
  else None.

End Bishop.

(** *** Knight *)
Module Knight.

Definition valid_move (current_location new_location : Z)
    : option (list Z) :=
  let d := Z.abs (current_location - new_location) in
  if div_is_one d 6 || div_is_one d 10 || div_is_one d 14
     || div_is_one d 15 || div_is_one d 17
  then Some [new_location]
  else None.

End Knight.

(** *** Queen *)
Module Queen.

(** The diagonal part, reached when neither the file test nor a row
    branch applies. *)
Definition diagonal_part (cur new : Z) : option (list Z) :=
  if Z.abs (cur - new) mod 7 =? 0 then
    if cur >? new then
      Some (collect new cur (fun location => Z.abs (location - cur) mod 7 =? 0))
    else if new >? cur then
      Some (collect cur new (fun location => Z.abs (location - cur) mod 7 =? 0))
    else None
  else if Z.abs (cur - new) mod 9 =? 0 then
    if cur >? new then
      Some (collect new cur (fun location => Z.abs (location - cur) mod 9 =? 0))
    else if new >? cur then
      Some (collect cur new (fun location => Z.abs (location - cur) mod 9 =? 0))
    else None
  else None.

Definition valid_move (current_location new_location : Z)
    : option (list Z) :=
  let cur := current_location in
  let new := new_location in
  if (cur - new) mod 8 =? 0 then
    if cur <? new then
      Some (collect cur new (fun location => Z.abs (cur - location) mod 8 =? 0))
    else if cur >? new then
      Some (collect new cur (fun location => Z.abs (cur - location) mod 8 =? 0))
    else Some []
  else
    match row_chain cur new with
    | Some l => Some l
    | None => diagonal_part cur new
    end.

End Queen.

(** *** King *)
Module King.

Definition valid_move (current_location new_location : Z)
    : option (list Z) :=
  let cur := current_location in
  let new := new_location in
  if div_is_one (Z.abs (cur - new)) 9 || div_is_one (Z.abs (cur - new)) 8
     || div_is_one (Z.abs (cur - new)) 7
  then Some [new]
  else if (cur + 1 =? new) || (cur - 1 =? new) then Some [new]
  else None.

End King.

(** *** Hunter *)
Module Hunter.

(** [location - current_location % k == 0] parses as
    [location - (current_location % k) == 0]. *)
Definition valid_move (self : Piece) (current_location new_location : Z)
    : option (list Z) :=
  let cur := current_location in
  let new := new_location in
  match _color self with
  | black =>
      if new >? cur then
        if (cur - new) mod 8 =? 0 then
          Some (collect cur new (fun location => (cur - location) mod 8 =? 0))
        else None
      else if new <? cur then
        if (cur - new) mod 7 =? 0 then
          Some (collect new cur (fun location => location - cur mod 7 =? 0))
        else if (cur - new) mod 9 =? 0 then
          Some (collect new cur (fun location => location - cur mod 9 =? 0))
        else None
      else None
  | white =>
      if new <? cur then
        if (cur - new) mod 8 =? 0 then
          Some (collect new cur (fun location => (cur - location) mod 8 =? 0))
        else None
      else if new >? cur then
        if (cur - new) mod 7 =? 0 then
          Some (collect cur new (fun location => location - cur mod 7 =? 0))
        else if (cur - new) mod 9 =? 0 then
          Some (collect cur new (fun location => location - cur mod 9 =? 0))
        else None
      else None
  end.

End Hunter.

(** *** Falcon *)
Module Falcon.

(** Every loop of the black branch runs over a range written the wrong
    way round, hence empty.  The third block of the source ([if self._color == 'white'] after the
    [if]/[elif] pair, the only place that returns [False]) cannot be
    reached: both colours return before it. *)
Definition valid_move (self : Piece) (current_location new_location : Z)
    : option (list Z) :=
  let cur := current_location in
  let new := new_location in
  match _color self with
  | black =>
      if new <? cur then
        if (cur - new) mod 8 =? 0 then
          Some (collect cur new (fun location => (cur - location) mod 8 =? 0))
        else None
      else if new >? cur then
        if (cur - new) mod 7 =? 0 then
          Some (collect new cur (fun location => location - cur mod 7 =? 0))
        else if (cur - new) mod 9 =? 0 then
          Some (collect new cur (fun location => location - cur mod 9 =? 0))
        else None
      else None
  | white =>
      if new >? cur then
        if (cur - new) mod 8 =? 0 then
          Some (collect cur new (fun location => (cur - location) mod 8 =? 0))
        else None
      else if new <? cur then
        if (cur - new) mod 7 =? 0 then
          Some (collect new cur (fun location => location - cur mod 7 =? 0))
        else if (cur - new) mod 9 =? 0 then
          Some (collect new cur (fun location => location - cur mod 9 =? 0))
        else None
      else None
  end.

End Falcon.

(** Dynamic dispatch of [piece.valid_move(...)] on the object's class.
    Only the pawn changes [self]. *)
Definition valid_move (self : Piece) (cur new : Z) (occ : option Piece)
    : option (list Z) * Piece :=
  match piece_class self with
  | PawnC => Pawn.valid_move self cur new occ
  | RookC => (Rook.valid_move cur new, self)
  | BishopC => (Bishop.valid_move cur new, self)
  | KnightC => (Knight.valid_move cur new, self)
  | QueenC => (Queen.valid_move cur new, self)
  | KingC => (King.valid_move cur new, self)
  | HunterC => (Hunter.valid_move self cur new, self)
  | FalconC => (Falcon.valid_move self cur new, self)
  end.

(** ** Outcomes of a call *)

(** The exceptions the modelled code can raise.  [InvalidRef] stands for a
    board slot naming an object that was never created; no Python run has
    one, and no state reachable from a new game has one. *)
Inductive exn := KeyError | TypeError | ValueError | InvalidRef.

Inductive outcome (A : Type) :=
| Return (a : A)
| Raise (e : exn).
Arguments Return {A} a.
Arguments Raise {A} e.

(** ** Player *)

Record Player := mkPlayer {
  _name : string;
  _player_color : Color;
  _active_pieces : list string;
  _captured_pieces : list string;
  _fairy_pieces_stable : list string
}.

Definition new_Player (name : string) (c : Color) : Player :=
  mkPlayer name c [] [] [].

Definition new_piece_set (p : Player) : Player :=
  mkPlayer (_name p) (_player_color p)
    (_active_pieces p ++ map (fun _ => "pawn"%string) (py_range 1 8)
       ++ ["rook"; "rook"; "knight"; "knight"; "bishop"; "bishop";
           "king"; "queen"]%string)
    (_captured_pieces p)
    (_fairy_pieces_stable p ++ ["hunter"; "falcon"]%string).

(** Removes the first occurrence, and does nothing when there is none. *)
Definition remove_active_piece (piece_name : string) (p : Player) : Player :=
  mkPlayer (_name p) (_player_color p)
    (match list_remove piece_name (_active_pieces p) with
     | Some l => l
     | None => _active_pieces p
     end)
    (_captured_pieces p) (_fairy_pieces_stable p).

Definition add_captured_piece (piece_name : string) (p : Player) : Player :=
  mkPlayer (_name p) (_player_color p) (_active_pieces p)
    (_captured_pieces p ++ [piece_name]) (_fairy_pieces_stable p).

(** [list.remove] raises [ValueError] when the name is absent. *)
Definition remove_fairy_piece (piece_name : string) (p : Player)
    : outcome Player :=
  match list_remove piece_name (_fairy_pieces_stable p) with
  | Some l =>
      Return (mkPlayer (_name p) (_player_color p) (_active_pieces p)
                (_captured_pieces p) l)
  | None => Raise ValueError
  end.

(** ** Board *)

(** A reference to a piece object: its index in the object store. *)
Abbreviation ref := nat.

(** [_board_dict]: square names and the four stable keys, each mapped to a
    piece reference or to [None]. *)
Abbreviation board_dict := (gmap string (option ref)).

Definition files : list string := ["a"; "b"; "c"; "d"; "e"; "f"; "g"; "h"]%string.

(** The keys of one rank, in file order. *)
Definition rank_keys (rank : string) : list string :=
  map (fun f => (f ++ rank)%string) files.

(** The 64 keys in the order the source lists them: rank 8 down to rank 1. *)
Definition square_keys : list string :=
  concat (map rank_keys ["8"; "7"; "6"; "5"; "4"; "3"; "2"; "1"]%string).

(** [Board.__init__]: every key holds [None]. *)
Definition empty_board_dict : board_dict :=
  list_to_map
    (map (fun k => (k, @None ref))
       (["f"; "h"]%string ++ square_keys ++ ["F"; "H"]%string)).

(** [_name_to_location_dict], in insertion order: a8=0, b8=1, ..., h1=63.
    It is never assigned after construction. *)
Definition _name_to_location_dict : list (string * Z) :=
  zip square_keys (py_range 0 64).

Fixpoint dict_get (k : string) (d : list (string * Z)) : option Z :=
  match d with
  | [] => None
  | (k', v) :: d' => if String.eqb k k' then Some v else dict_get k d'
  end.

(** [if space_name in self._board_dict: return self._name_to_location_dict[space_name]]
    and [None] otherwise; the inner lookup raises [KeyError] on a key of
    the board dictionary that is no square (a stable key). *)
Definition get_space_name_as_location (b : board_dict) (space_name : string)
    : outcome (option Z) :=
  match b !! space_name with
  | Some _ =>
      match dict_get space_name _name_to_location_dict with
      | Some v => Return (Some v)
      | None => Raise KeyError
      end
  | None => Return None
  end.

(** First key whose value is [location]; falls off the loop (Python's
    implicit [None]) when there is none. *)
Fixpoint first_key_of (location : Z) (d : list (string * Z)) : option string :=
  match d with
  | [] => None
  | (key, value) :: d' =>
      if location =? value then Some key else first_key_of location d'
  end.

Definition get_location_as_space_name (location : Z) : option string :=
  first_key_of location _name_to_location_dict.

(** ** The match *)

Inductive GameState := UNFINISHED | WHITE_WON | BLACK_WON.

(** A [ChessVar] object together with the piece objects it can reach.
    [_new_board] is the board object's [_board_dict]. *)
Record ChessVar := mkChessVar {
  _turn : Z;
  _game_state : GameState;
  _player_1 : Player;
  _player_2 : Player;
  _piece_generation_counter : Z;
  _new_board : board_dict;
  objects : list Piece
}.

Definition set_turn (t : Z) (g : ChessVar) : ChessVar :=
  mkChessVar t (_game_state g) (_player_1 g) (_player_2 g)
    (_piece_generation_counter g) (_new_board g) (objects g).

Definition set_game_state (s : GameState) (g : ChessVar) : ChessVar :=
  mkChessVar (_turn g) s (_player_1 g) (_player_2 g)
    (_piece_generation_counter g) (_new_board g) (objects g).

Definition set_player_1 (p : Player) (g : ChessVar) : ChessVar :=
  mkChessVar (_turn g) (_game_state g) p (_player_2 g)
    (_piece_generation_counter g) (_new_board g) (objects g).

Definition set_player_2 (p : Player) (g : ChessVar) : ChessVar :=
  mkChessVar (_turn g) (_game_state g) (_player_1 g) p
    (_piece_generation_counter g) (_new_board g) (objects g).

Definition set_board (b : board_dict) (g : ChessVar) : ChessVar :=
  mkChessVar (_turn g) (_game_state g) (_player_1 g) (_player_2 g)
    (_piece_generation_counter g) b (objects g).

Definition set_objects (h : list Piece) (g : ChessVar) : ChessVar :=
  mkChessVar (_turn g) (_game_state g) (_player_1 g) (_player_2 g)
    (_piece_generation_counter g) (_new_board g) h.

(** *** A state monad with exceptions

    A method call maps the state before it to its outcome and the state
    after it; what was assigned before an exception stays assigned. *)
Definition M (A : Type) : Type := ChessVar -> outcome A * ChessVar.

Definition ret {A} (a : A) : M A := fun g => (Return a, g).
Definition raise {A} (e : exn) : M A := fun g => (Raise e, g).
Definition bind {A B} (m : M A) (k : A -> M B) : M B :=
  fun g =>
    match m g with
    | (Return a, g') => k a g'
    | (Raise e, g') => (Raise e, g')
    end.
Definition gets {A} (f : ChessVar -> A) : M A := fun g => (Return (f g), g).
Definition modify (f : ChessVar -> ChessVar) : M unit :=
  fun g => (Return tt, f g).
Definition lift {A} (o : outcome A) : M A := fun g => (o, g).

(** [return b] in a method that answers with a boolean. *)
Definition return_ (b : bool) : M bool := ret b.

Declare Scope chess_scope.
Delimit Scope chess_scope with chess.
Notation "x ← y ; z" := (bind y (fun x => z))
  (at level 20, y at level 100, z at level 200, only parsing) : chess_scope.
Notation "x ;; z" := (bind x (fun _ => z))
  (at level 100, z at level 200, only parsing, right associativity)
  : chess_scope.
Open Scope chess_scope.

(** [self._new_board.get_board_dict()[key]] *)
Definition board_getitem (key : string) : M (option ref) :=
  b ← gets _new_board;
  match b !! key with
  | Some v => ret v
  | None => raise KeyError
  end.

(** [Board.set_space_occupant], and item assignment on the dictionary. *)
Definition set_space_occupant (piece_object : option ref) (space_name : string)
    : M unit :=
  modify (fun g => set_board (<[space_name := piece_object]> (_new_board g)) g).

(** The object a reference names. *)
Definition deref (r : ref) : M Piece :=
  h ← gets objects;
  match h !! r with
  | Some p => ret p
  | None => raise InvalidRef
  end.

(** The occupant of a slot as an object, [None] for an empty slot. *)
Definition deref_opt (o : option ref) : M (option Piece) :=
  match o with
  | Some r => p ← deref r; ret (Some p)
  | None => ret None
  end.

(** Writes back the attributes of the object [r] names. *)
Definition store (r : ref) (p : Piece) : M unit :=
  modify (fun g => set_objects (<[r := p]> (objects g)) g).

(** A constructor call: a new object, and the reference to it. *)
Definition new_object (p : Piece) : M ref :=
  h ← gets objects;
  modify (set_objects (h ++ [p]));;
  ret (length h).

(** [ChessVar.increment_turn] *)
Definition increment_turn : M unit :=
  p1 ← gets _player_1;
  (if str_in "king" (_captured_pieces p1)
   then modify (set_game_state BLACK_WON) else ret tt);;
  p2 ← gets _player_2;
  (if str_in "king" (_captured_pieces p2)
   then modify (set_game_state WHITE_WON) else ret tt);;
  modify (fun g => set_turn (_turn g + 1) g).

(** The obstruction loop of [make_move]: [Return true] when the loop
    reaches its [return False], [Return false] when it runs to its end.
    A location with no square name makes the dictionary lookup raise. *)
Fixpoint path_blocked (b : board_dict) (new_square_location
    moving_piece_location : Z) (valid_move_list : list Z) : outcome bool :=
  match valid_move_list with
  | [] => Return false
  | move :: rest =>
      if negb (move =? new_square_location)
         && negb (move =? moving_piece_location) then
        match get_location_as_space_name move with
        | None => Raise KeyError
        | Some name =>
            match b !! name with
            | None => Raise KeyError
            | Some (Some _) => Return true
            | Some None =>
                path_blocked b new_square_location moving_piece_location rest
            end
        end
      else path_blocked b new_square_location moving_piece_location rest
  end.

(** The capture step of [make_move] for a non-empty destination:
    [Return false] stands for its [return False]. *)
Definition capture (player_turn : Color) (opponent : Piece) : M bool :=
  match player_turn with
  | white =>
      if color_eqb (get_color opponent) white then ret false
      else
        modify (fun g => set_player_2
                  (remove_active_piece (get_name opponent)
                     (add_captured_piece (get_name opponent) (_player_2 g))) g);;
        ret true
  | black =>
      if color_eqb (get_color opponent) black then ret false
      else
        modify (fun g => set_player_1
                  (remove_active_piece (get_name opponent)
                     (add_captured_piece (get_name opponent) (_player_1 g))) g);;
        ret true
  end.

(** [turn % 2 == 1] is white's turn. *)
Definition player_of_turn (t : Z) : Color :=
  if t mod 2 =? 1 then white else black.

(** [ChessVar.make_move].  Both names have been found in the board
    dictionary when their locations are asked for, so neither location is
    [None] and the last branch is never taken. *)
Definition make_move (current_square new_square : string) : M bool :=
  gs ← gets _game_state;
  match gs with
  | WHITE_WON | BLACK_WON => return_ false
  | UNFINISHED =>
  t ← gets _turn;
  let player_turn := player_of_turn t in
  moving_piece ← board_getitem current_square;
  match moving_piece with
  | None => return_ false
  | Some r =>
  self ← deref r;
  if negb (color_eqb (get_color self) player_turn) then return_ false else
  b ← gets _new_board;
  if is_None (b !! current_square) then return_ false else
  if is_None (b !! new_square) then return_ false else
  new_loc ← lift (get_space_name_as_location b new_square);
  cur_loc ← lift (get_space_name_as_location b current_square);
  opponent_ref ← board_getitem new_square;
  opponent_in_new_square ← deref_opt opponent_ref;
  match cur_loc, new_loc with
  | Some moving_piece_location, Some new_square_location =>
      let '(valid_move_list, self') :=
        valid_move self moving_piece_location new_square_location
          opponent_in_new_square in
      store r self';;
      match valid_move_list with
      | None => return_ false
      | Some l =>
          blocked ← lift (path_blocked b new_square_location
                             moving_piece_location l);
          if blocked then return_ false else
          ok ← match opponent_in_new_square with
                | Some opponent => capture player_turn opponent
                | None => ret true
                end;
          if negb ok then return_ false else
          set_space_occupant (Some r) new_square;;
          set_space_occupant None current_square;;
          increment_turn;;
          return_ true
      end
  | _, _ => raise TypeError
  end
  end
  end.

(** The condition [if 'rook' or 'knight' or 'bishop' or 'queen' in captured]:
    [in] binds tighter than [or], so the first operand is the string
    ['rook'] on its own. *)
Definition fairy_gate (captured : list string) : bool :=
  truthy "rook" || truthy "knight" || truthy "bishop"
  || str_in "queen" captured.

(** The three statements before [increment_turn] of an accepted entry:
    the square receives what the stable key holds, and the kind leaves
    [self._player_1]'s stable. *)
Definition enter (stable_key kind entry_square : string) : M bool :=
  v ← board_getitem stable_key;
  set_space_occupant v entry_square;;
  p1 ← gets _player_1;
  p1' ← lift (remove_fairy_piece kind p1);
  modify (set_player_1 p1');;
  increment_turn;;
  return_ true.

(** One colour block of [entry_fairy_piece].  The white block uses the
    keys ['F'] and ['H'], the black block ['f'] and ['h']; both blocks of
    the source read and update [self._player_1]. *)
Definition entry_block (falcon_key hunter_key piece_type entry_square : string)
    : M bool :=
  occ ← board_getitem entry_square;
  if is_None occ then
    p1 ← gets _player_1;
    if String.eqb piece_type falcon_key
       && str_in "falcon" (_fairy_pieces_stable p1)
       && fairy_gate (_captured_pieces p1)
    then enter falcon_key "falcon" entry_square
    else if String.eqb piece_type hunter_key
            && str_in "hunter" (_fairy_pieces_stable p1)
            && fairy_gate (_captured_pieces p1)
    then enter hunter_key "hunter" entry_square
    else return_ false
  else return_ false.

(** [ChessVar.entry_fairy_piece].  Comparing [None] with an integer
    raises [TypeError]. *)
Definition entry_fairy_piece (piece_type entry_square : string) : M bool :=
  t ← gets _turn;
  let player_turn := player_of_turn t in
  b ← gets _new_board;
  match player_turn with
  | white =>
      loc ← lift (get_space_name_as_location b entry_square);
      match loc with
      | None => raise TypeError
      | Some n =>
          if n >? 47 then entry_block "F" "H" piece_type entry_square
          else return_ false
      end
  | black =>
      loc ← lift (get_space_name_as_location b entry_square);
      match loc with
      | None => raise TypeError
      | Some n =>
          if n <? 16 then entry_block "f" "h" piece_type entry_square
          else return_ false
      end
  end.

(** *** Construction *)

(** [str(n)] for the rank numbers the constructor passes. *)
Definition str (n : Z) : string := pretty n.

(** [x = Class(color); self._board_dict[key] = x] *)
Definition place (c : PieceClass) (color : Color) (key : string) : M unit :=
  r ← new_object (mkPiece c color true);
  set_space_occupant (Some r) key.

(** [Board.populate_board] *)
Definition populate_board (color : Color) (row_front row_back : Z) : M unit :=
  place PawnC color ("a" ++ str row_front);;
  place PawnC color ("b" ++ str row_front);;
  place PawnC color ("c" ++ str row_front);;
  place PawnC color ("d" ++ str row_front);;
  place PawnC color ("e" ++ str row_front);;
  place PawnC color ("f" ++ str row_front);;
  place PawnC color ("g" ++ str row_front);;
  place PawnC color ("h" ++ str row_front);;
  place RookC color ("a" ++ str row_back);;
  place RookC color ("h" ++ str row_back);;
  place KnightC color ("b" ++ str row_back);;
  place KnightC color ("g" ++ str row_back);;
  place BishopC color ("c" ++ str row_back);;
  place BishopC color ("f" ++ str row_back);;
  place QueenC color ("d" ++ str row_back);;
  place KingC color ("e" ++ str row_back);;
  match color with
  | black => place FalconC color "f";; place HunterC color "h"
  | white => place FalconC color "F";; place HunterC color "H"
  end.

(** [ChessVar.__init__]: the state of a new match. *)
Definition new_game : ChessVar :=
  let g0 :=
    mkChessVar 1 UNFINISHED
      (new_piece_set (new_Player "player_1" white))
      (new_piece_set (new_Player "player_2" black))
      32 empty_board_dict [] in
  snd ((populate_board black 7 8;; populate_board white 2 1) g0).

(** *** Sequences of calls *)

Inductive call :=
| MakeMove (current_square new_square : string)
| EntryFairyPiece (piece_type entry_square : string).

Definition run (c : call) : M bool :=
  match c with
  | MakeMove a b => make_move a b
  | EntryFairyPiece t s => entry_fairy_piece t s
  end.

(** The state after a sequence of calls, whatever each call answered. *)
Definition play (cs : list call) (g : ChessVar) : ChessVar :=
  fold_left (fun g c => snd (run c g)) cs g.

(** The states a driver can reach from a new match. *)
Inductive reachable : ChessVar -> Prop :=
| reachable_new : reachable new_game
| reachable_step g c : reachable g -> reachable (snd (run c g)).


(** ** Board geometry, as the specification words it

    Locations run row-major, eight to a row, from a8 = 0 to h1 = 63. *)

Definition file_of (location : Z) : Z := location mod 8.
Definition row_of (location : Z) : Z := location / 8.

Definition file_delta (cur new : Z) : Z := Z.abs (file_of cur - file_of new).
Definition row_delta (cur new : Z) : Z := Z.abs (row_of cur - row_of new).

(** A 2-1 L-shape: (file delta, rank delta) is (1,2) or (2,1). *)
Definition l_shape (cur new : Z) : bool :=
  ((file_delta cur new =? 1) && (row_delta cur new =? 2))
  || ((file_delta cur new =? 2) && (row_delta cur new =? 1)).

(** A true diagonal: as many files as ranks apart, and not the same square. *)
Definition true_diagonal (cur new : Z) : bool :=
  (file_delta cur new =? row_delta cur new)
  && negb (file_delta cur new =? 0).

(** The squares traversed from [cur] to [new] on a true diagonal, origin and
    destination included: constant file and rank steps. *)
Definition diagonal_segment (cur new : Z) : list Z :=
  let n := file_delta cur new in
  map (fun k => cur + k * ((new - cur) / n)) (py_range 0 (n + 1)).

Definition on_board (location : Z) : Prop := 0 <= location <= 63.

(** The four stable keys of the board dictionary. *)
Definition stable_keys : list string := ["f"; "h"; "F"; "H"]%string.

(** ** Matches used as test inputs *)

(** White's knight stands on c3, in front of the unmoved pawn on c2. *)
Definition knight_on_c3 : ChessVar :=
  play [MakeMove "b1" "c3"; MakeMove "a7" "a6"] new_game.

(** White's knight takes the king on e8 with four knight moves; black
    has advanced the a-pawn and the h-pawn, so a7 is empty. *)
Definition king_taken_calls : list call :=
  [MakeMove "b1" "c3"; MakeMove "a7" "a6";
   MakeMove "c3" "b5"; MakeMove "h7" "h6";
   MakeMove "b5" "c7"; MakeMove "h6" "h5";
   MakeMove "c7" "e8"].
Definition king_taken : ChessVar := play king_taken_calls new_game.

(** Both a-pawns have advanced two squares; nothing has been captured and
    it is white's turn. *)
Definition a_pawns_advanced : ChessVar :=
  play [MakeMove "a2" "a4"; MakeMove "a7" "a5"] new_game.

(** The same, one white move later: black's turn. *)
Definition black_to_enter : ChessVar :=
  play [MakeMove "b2" "b4"] a_pawns_advanced.

(** White's rook on a3 and white's knight on c3, white to move. *)
Definition rook_on_a3 : ChessVar :=
  play [MakeMove "a2" "a4"; MakeMove "a7" "a6";
        MakeMove "a1" "a3"; MakeMove "a6" "a5";
        MakeMove "b1" "c3"; MakeMove "b7" "b6"] new_game.

(** The answers of a sequence of calls, in order. *)
Fixpoint answers (cs : list call) (g : ChessVar) : list (outcome bool) :=
  match cs with
  | [] => []
  | c :: cs' => fst (run c g) :: answers cs' (snd (run c g))
  end.

(** ** Decision procedures on the 64 locations *)

(** The bishop's list and the traversed diagonal hold the same locations,
    for a true diagonal whose difference is no multiple of 7. *)
Definition bishop_diagonal_check (cur new : Z) : bool :=
  if true_diagonal cur new && negb ((cur - new) mod 7 =? 0) then
    match Bishop.valid_move cur new with
    | Some l =>
        forallb (fun x => py_in x (diagonal_segment cur new)) l
        && forallb (fun x => py_in x l) (diagonal_segment cur new)
    | None => false
    end
  else true.

(** [check cur new] for all 64 x 64 pairs of locations. *)
Definition all_pairs (check : Z -> Z -> bool) : bool :=
  forallb (fun cur => forallb (check cur) (py_range 0 64)) (py_range 0 64).

Open Scope string_scope.

(** ** Frames and invariants *)

(** [g'] differs from [g] at most in the attributes of piece objects. *)
Definition same_but_objects (g g' : ChessVar) : Prop :=
  _turn g' = _turn g /\ _game_state g' = _game_state g /\
  _player_1 g' = _player_1 g /\ _player_2 g' = _player_2 g /\
  _piece_generation_counter g' = _piece_generation_counter g /\
  _new_board g' = _new_board g.

(** The names that are keys of [_name_to_location_dict]. *)
Definition is_square (k : string) : Prop :=
  is_Some (dict_get k _name_to_location_dict).

(** Every key of the board dictionary. *)
Definition all_keys : list string := stable_keys ++ square_keys.

(** What [self._player_1]'s stable can hold. *)
Definition stable_lists : list (list string) :=
  [["hunter"; "falcon"]; ["falcon"]; ["hunter"]; []].

(** The invariant of the board dictionary [bd] and of [_player_1]'s
    stable.  The piece objects 16, 17, 34 and 35 are black's falcon and
    hunter and white's falcon and hunter, in the order [new_game] creates
    them.  Every key stays; the stable keys keep their objects; no two
    squares hold the same object; and while a kind is in the stable, no
    object of that kind stands on a square. *)
Record board_inv_of (bd : board_dict) (stable : list string) : Prop := {
  inv_keys : forall k, In k all_keys -> is_Some (bd !! k);
  inv_stable :
    bd !! "f" = Some (Some 16%nat) /\ bd !! "h" = Some (Some 17%nat) /\
    bd !! "F" = Some (Some 34%nat) /\ bd !! "H" = Some (Some 35%nat);
  inv_squares : forall s1 s2 r, is_square s1 -> is_square s2 ->
    bd !! s1 = Some (Some r) -> bd !! s2 = Some (Some r) -> s1 = s2;
  inv_stable_list : In stable stable_lists;
  inv_falcon : In "falcon" stable -> forall s r, is_square s ->
    bd !! s = Some (Some r) -> r <> 16%nat /\ r <> 34%nat;
  inv_hunter : In "hunter" stable -> forall s r, is_square s ->
    bd !! s = Some (Some r) -> r <> 17%nat /\ r <> 35%nat
}.

Definition board_inv (g : ChessVar) : Prop :=
  board_inv_of (_new_board g) (_fairy_pieces_stable (_player_1 g)).

(** Executable forms of the invariant's clauses, over the 64 squares. *)
Definition keys_check (bd : board_dict) : bool :=
  forallb (fun k => negb (is_None (bd !! k))) all_keys.

Definition squares_distinct_check (bd : board_dict) : bool :=
  forallb (fun s1 =>
    forallb (fun s2 =>
      match bd !! s1, bd !! s2 with
      | Some (Some r1), Some (Some r2) =>
          implb (Nat.eqb r1 r2) (String.eqb s1 s2)
      | _, _ => true
      end) square_keys) square_keys.

Definition not_on_squares_check (bd : board_dict) (r : ref) : bool :=
  forallb (fun s =>
    match bd !! s with
    | Some (Some r') => negb (Nat.eqb r' r)
    | _ => true
    end) square_keys.

(** The 64 standard square names: a file letter a-h, then a rank digit
    1-8. *)
Definition standard_squares : list string :=
  flat_map (fun f => map (fun r => f ++ r) ["1"; "2"; "3"; "4"; "5"; "6"; "7"; "8"])
    files.

Definition name_round_trip_check (s : string) : bool :=
  str_in s all_keys &&
  match dict_get s _name_to_location_dict with
  | Some i =>
      (0 <=? i)%Z && (i <=? 63)%Z &&
      match get_location_as_space_name i with
      | Some s' => String.eqb s' s
      | None => false
      end
  | None => false
  end.

Definition index_round_trip_check (i : Z) : bool :=
  match get_location_as_space_name i with
  | Some s =>
      str_in s standard_squares && str_in s all_keys &&
      match dict_get s _name_to_location_dict with
      | Some j => (j =? i)%Z
      | None => false
      end
  | None => false
  end.

Definition squares_check : bool :=
  forallb (fun s => negb (is_None (dict_get s _name_to_location_dict)))
    square_keys.

(** White's hunter has entered on a2 in [a_pawns_advanced]. *)
Definition hunter_entered : ChessVar :=
  play [MakeMove "a2" "a4"; MakeMove "a7" "a5"; EntryFairyPiece "H" "a2"]
    new_game.

(** ** Definitions for the further properties *)

(** What a capture does to the player object it is booked on: the name is
    appended to the captured list and its first occurrence leaves the
    active list. *)
Definition credited (n : string) (p : Player) : Player :=
  remove_active_piece n (add_captured_piece n p).

(** The game state [increment_turn] leaves behind, from the two captured
    lists and the state before: the test of [_player_2] comes last and
    wins. *)
Definition outcome_of (p1 p2 : Player) (before : GameState) : GameState :=
  if str_in "king" (_captured_pieces p2) then WHITE_WON
  else if str_in "king" (_captured_pieces p1) then BLACK_WON
  else before.

(** Two distinct squares at most one file and one rank apart. *)
Definition adjacent (cur new : Z) : bool :=
  (file_delta cur new <=? 1)%Z && (row_delta cur new <=? 1)%Z
  && negb (cur =? new)%Z.

(** [Rook.valid_move] answers [None] exactly for two squares that share
    neither file nor row. *)
Definition rook_shape_check (cur new : Z) : bool :=
  Bool.eqb (is_None (Rook.valid_move cur new))
    (negb (file_of cur =? file_of new)%Z
     && negb (row_of cur =? row_of new)%Z).

(** A row move towards a lower index gets the whole segment. *)
Definition rook_leftwards_check (cur new : Z) : bool :=
  if (row_of cur =? row_of new)%Z && (new <? cur)%Z
  then bool_decide (Rook.valid_move cur new = Some (py_range new (cur + 1)))
  else true.

(** One rank forward for a pawn, as a difference of locations: white moves
    towards rank 8 (lower locations), black towards rank 1. *)
Definition pawn_step (c : Color) : Z :=
  match c with white => -8 | black => 8 end.

(** The two edge lists of the pawn are the a-file and the h-file. *)
Definition edge_check (cur : Z) : bool :=
  Bool.eqb (py_in cur _edge_one) (cur mod 8 =? 0)%Z
  && Bool.eqb (py_in cur _edge_eight) (cur mod 8 =? 7)%Z.

(** The direction in which the hunter of colour [c] moves like a rook:
    black towards higher locations, white towards lower ones. *)
Definition rookwards (c : Color) (cur new : Z) : Prop :=
  match c with
  | black => cur < new
  | white => new < cur
  end.

(** An answer is an acceptance when the call returned [True]. *)
Definition accepted (o : outcome bool) : bool :=
  match o with Return true => true | _ => false end.

(** The game state is the one the captured lists give, and at most one
    king has been captured. *)
Definition outcome_inv (g : ChessVar) : Prop :=
  _game_state g = outcome_of (_player_1 g) (_player_2 g) UNFINISHED /\
  str_in "king" (_captured_pieces (_player_1 g))
  && str_in "king" (_captured_pieces (_player_2 g)) = false.

(** The piece codes [entry_fairy_piece] compares with, and the kind each
    one stands for. *)
Definition fairy_codes : list (string * string) :=
  [("F", "falcon"); ("H", "hunter"); ("f", "falcon"); ("h", "hunter")].

(** [p'] is the object [p] at a later time: class and colour are those of
    [p], and a first-move flag that is set was set before. *)
Definition same_piece (p p' : Piece) : Prop :=
  piece_class p' = piece_class p /\ _color p' = _color p /\
  (_first_move p' = true -> _first_move p = true).

(** The object store holds the 36 pieces [populate_board] creates, every
    board slot refers into it, and the board has no key besides the 68 of
    the constructor. *)
Definition store_inv (g : ChessVar) : Prop :=
  length (objects g) = 36%nat /\
  (forall k r, _new_board g !! k = Some (Some r) -> (r < 36)%nat) /\
  (forall k, is_Some (_new_board g !! k) -> In k all_keys).

Definition slot_check (kv : string * option ref) : bool :=
  str_in (fst kv) all_keys &&
  match snd kv with
  | Some r => Nat.ltb r 36
  | None => true
  end.

(** The colour strings the constructors of the pieces are given. *)
Definition color_name (c : Color) : string :=
  match c with white => "white" | black => "black" end.

(** [Board.get_space_occupant]: colour and name of the occupant,
    concatenated, or [None] for an empty slot; a name that is no key of
    the board dictionary raises [KeyError]. *)
Definition get_space_occupant (space_name : string) : M (option string) :=
  v ← board_getitem space_name;
  match v with
  | Some r =>
      p ← deref r;
      ret (Some (color_name (get_color p) ++ get_name p))
  | None => ret None
  end.

(** * Properties *)

(** ** Rejected moves and the pawn's first-move flag *)

(** C1 (fails on the code).  In [knight_on_c3] the pawn object on c2 still
    has its first-move flag.  The double step c2-c4 is answered [False]
    because c3 is occupied, but [Pawn.valid_move] has already cleared the
    flag of that object: the rejected call changed a piece's state.  The
    change is observable: once the knight has left c3 the same double step
    is accepted in the match that never tried it and rejected in the match
    that did. *)
Theorem C1_rejected_double_step_clears_flag :
  _new_board knight_on_c3 !! "c2" = Some (Some 20%nat) /\
  objects knight_on_c3 !! 20%nat = Some (mkPiece PawnC white true) /\
  fst (make_move "c2" "c4" knight_on_c3) = Return false /\
  objects (snd (make_move "c2" "c4" knight_on_c3)) !! 20%nat
    = Some (mkPiece PawnC white false) /\
  answers [MakeMove "c3" "e4"; MakeMove "a6" "a5"; MakeMove "c2" "c4"]
    knight_on_c3 = [Return true; Return true; Return true] /\
  answers [MakeMove "c3" "e4"; MakeMove "a6" "a5"; MakeMove "c2" "c4"]
    (snd (make_move "c2" "c4" knight_on_c3))
    = [Return true; Return true; Return false].
Proof. vm_compute. repeat split; reflexivity. Qed.

(** ** A decided match *)

(** [make_move] starts with the test of the game state: in a decided match
    it answers [False] and leaves the state as it is. *)
Lemma make_move_decided (g : ChessVar) (a b : string) :
  _game_state g <> UNFINISHED -> make_move a b g = (Return false, g).
Proof.
  intros Hs. unfold make_move, bind, gets. cbn.
  destruct (_game_state g); [congruence | reflexivity | reflexivity].
Qed.

(** C2 (fails on the code).  In [king_taken] white has captured the king and
    the game state is [WHITE_WON].  [make_move] is refused, but
    [entry_fairy_piece], which never reads the game state, answers [True]
    for black's falcon on a7 and changes the turn counter, the board and a
    fairy stable. *)
Theorem C2_entry_accepted_after_win :
  answers king_taken_calls new_game = repeat (Return true) 7 /\
  _game_state king_taken = WHITE_WON /\
  fst (make_move "a6" "a5" king_taken) = Return false /\
  fst (entry_fairy_piece "f" "a7" king_taken) = Return true /\
  _turn king_taken = 8 /\
  _turn (snd (entry_fairy_piece "f" "a7" king_taken)) = 9 /\
  _new_board king_taken !! "a7" = Some None /\
  _new_board (snd (entry_fairy_piece "f" "a7" king_taken)) !! "a7"
    = Some (Some 16%nat).
Proof. vm_compute. repeat split; reflexivity. Qed.

(** ** The capture gate of fairy entry *)

(** The gate condition holds for every captured list. *)
Lemma fairy_gate_always (captured : list string) : fairy_gate captured = true.
Proof. reflexivity. Qed.

(** C3 (fails on the code).  In [a_pawns_advanced] neither player's captured
    list holds anything, yet white's hunter enters on a2: the entry answers
    [True], advances the turn and takes the hunter out of the stable. *)
Theorem C3_entry_without_capture :
  _captured_pieces (_player_1 a_pawns_advanced) = [] /\
  _captured_pieces (_player_2 a_pawns_advanced) = [] /\
  fst (entry_fairy_piece "H" "a2" a_pawns_advanced) = Return true /\
  _turn a_pawns_advanced = 3 /\
  _turn (snd (entry_fairy_piece "H" "a2" a_pawns_advanced)) = 4 /\
  _fairy_pieces_stable
    (_player_1 (snd (entry_fairy_piece "H" "a2" a_pawns_advanced)))
    = ["falcon"].
Proof. vm_compute. repeat split; reflexivity. Qed.

(** ** Whose stable an entry uses *)

(** C4 (fails on the code).  In [black_to_enter] it is black's turn and
    black's falcon enters on a7.  The entry is accepted, black's own stable
    ([_player_2]) is left as it was, and the falcon is taken out of white's
    stable ([_player_1]).  White, whose falcon never entered, is then
    refused the entry of its falcon. *)
Theorem C4_black_entry_uses_white_stable :
  player_of_turn (_turn black_to_enter) = black /\
  fst (entry_fairy_piece "f" "a7" black_to_enter) = Return true /\
  _fairy_pieces_stable (_player_2 black_to_enter) = ["hunter"; "falcon"] /\
  _fairy_pieces_stable
    (_player_2 (snd (entry_fairy_piece "f" "a7" black_to_enter)))
    = ["hunter"; "falcon"] /\
  _fairy_pieces_stable (_player_1 black_to_enter) = ["hunter"; "falcon"] /\
  _fairy_pieces_stable
    (_player_1 (snd (entry_fairy_piece "f" "a7" black_to_enter)))
    = ["hunter"] /\
  fst (entry_fairy_piece "F" "b2"
         (snd (entry_fairy_piece "f" "a7" black_to_enter))) = Return false.
Proof. vm_compute. repeat split; reflexivity. Qed.

(** ** Names that are no squares *)

(** A source name that is no key of the board dictionary makes the first
    lookup of [make_move] raise, in every undecided match. *)
Lemma make_move_unknown_source (g : ChessVar) (a b : string) :
  _game_state g = UNFINISHED -> _new_board g !! a = None ->
  make_move a b g = (Raise KeyError, g).
Proof.
  intros Hs Ha. unfold make_move, bind, gets, board_getitem, bind, gets, raise.
  cbn. rewrite Hs. cbn. rewrite Ha. reflexivity.
Qed.

(** C5 (fails on the code).  In a new match, the malformed source name z9
    raises [KeyError] instead of answering [False]; so do the stable key F
    as a source and as a destination.  A malformed destination with a good
    source is answered [False]. *)
Theorem C5_bad_square_name_raises :
  make_move "z9" "a3" new_game = (Raise KeyError, new_game) /\
  fst (make_move "F" "a3" new_game) = Raise KeyError /\
  fst (make_move "a2" "F" new_game) = Raise KeyError /\
  fst (make_move "a2" "z9" new_game) = Return false.
Proof.
  split.
  - apply make_move_unknown_source; vm_compute; reflexivity.
  - vm_compute. repeat split; reflexivity.
Qed.

(** ** Rook moves along a row *)

(** For a destination further along the row the rook's list is empty:
    both loops of a row branch run only when the destination is below the
    origin. *)
Lemma row_body_rightwards (cur new : Z) : cur <= new -> row_body cur new = [].
Proof.
  intros H. unfold row_body.
  destruct (Z.gtb_spec cur new); [lia |].
  destruct (Z.ltb_spec new cur); [lia | reflexivity].
Qed.

(** C6 (fails on the code).  The rook on a1 cannot jump the pawn on a2.
    But for the row move a3-h3 the rook's [valid_move] returns the empty
    list, not the squares of the segment, and in [rook_on_a3], where the
    knight on c3 stands between a3 and h3, [make_move] accepts the move. *)
Theorem C6_rook_jumps_along_row :
  fst (make_move "a1" "a3" new_game) = Return false /\
  Rook.valid_move 56 40 = Some [40; 48; 56] /\
  Rook.valid_move 40 47 = Some [] /\
  _new_board rook_on_a3 !! "a3" = Some (Some 26%nat) /\
  objects rook_on_a3 !! 26%nat = Some (mkPiece RookC white true) /\
  _new_board rook_on_a3 !! "c3" = Some (Some 28%nat) /\
  fst (make_move "a3" "h3" rook_on_a3) = Return true /\
  _new_board (snd (make_move "a3" "h3" rook_on_a3)) !! "h3"
    = Some (Some 26%nat).
Proof. vm_compute. repeat split; reflexivity. Qed.

(** ** Knight *)

Lemma div_is_one_spec (x k : Z) : div_is_one x k = true <-> x = k.
Proof. unfold div_is_one. apply Z.eqb_eq. Qed.

(** The knight's test is a test of the absolute index difference alone. *)
Lemma knight_accepts_iff (cur new : Z) :
  Knight.valid_move cur new = Some [new]
  <-> In (Z.abs (cur - new)) [6; 10; 14; 15; 17].
Proof.
  unfold Knight.valid_move, div_is_one. cbn [In].
  destruct (Z.eqb_spec (Z.abs (cur - new)) 6);
  destruct (Z.eqb_spec (Z.abs (cur - new)) 10);
  destruct (Z.eqb_spec (Z.abs (cur - new)) 14);
  destruct (Z.eqb_spec (Z.abs (cur - new)) 15);
  destruct (Z.eqb_spec (Z.abs (cur - new)) 17);
  cbn; split; intros H; try reflexivity; try discriminate; try lia;
  intuition lia.
Qed.

(** Locations a 2-1 L-shape apart differ by 6, 10, 15 or 17. *)
Lemma l_shape_difference (cur new : Z) :
  l_shape cur new = true -> In (Z.abs (cur - new)) [6; 10; 15; 17].
Proof.
  unfold l_shape, file_delta, row_delta, file_of, row_of. cbn [In].
  pose proof (Z.div_mod cur 8 ltac:(lia)) as Hc.
  pose proof (Z.div_mod new 8 ltac:(lia)) as Hn.
  pose proof (Z.mod_pos_bound cur 8 ltac:(lia)) as Bc.
  pose proof (Z.mod_pos_bound new 8 ltac:(lia)) as Bn.
  rewrite orb_true_iff, !andb_true_iff, !Z.eqb_eq.
  generalize dependent (cur / 8). generalize dependent (cur mod 8).
  generalize dependent (new / 8). generalize dependent (new mod 8).
  intros; lia.
Qed.

(** C7, counterexample.  a7 (8) and g7 (14) lie on one rank, six files
    apart: the difference 6 is listed, the move is no L-shape and wraps
    round the board edge, and the knight's [valid_move] accepts it. *)
Lemma C7_knight_accepts_wrap :
  on_board 8 /\ on_board 14 /\
  In (Z.abs (8 - 14)) [6; 10; 14; 15; 17] /\
  l_shape 8 14 = false /\
  Knight.valid_move 8 14 = Some [14].
Proof. unfold on_board. repeat split; try lia; cbn; auto. Qed.

(** C7, as amended.  The knight's [valid_move] accepts a move exactly when
    the absolute index difference is 6, 10, 14, 15 or 17, and rejects it
    otherwise; no file or rank is looked at.  Every 2-1 L-shaped move is
    therefore accepted. *)
Theorem C7_knight_difference_only (cur new : Z) :
  (Knight.valid_move cur new = Some [new]
   <-> In (Z.abs (cur - new)) [6; 10; 14; 15; 17]) /\
  (Knight.valid_move cur new = None
   <-> ~ In (Z.abs (cur - new)) [6; 10; 14; 15; 17]) /\
  (l_shape cur new = true -> Knight.valid_move cur new = Some [new]).
Proof.
  pose proof (knight_accepts_iff cur new) as Hacc.
  split; [exact Hacc |]. split.
  - split.
    + intros Hn Hin. apply Hacc in Hin. congruence.
    + intros Hn. unfold Knight.valid_move in *.
      destruct (_ || _) eqn:E; [| reflexivity].
      exfalso. apply Hn, Hacc. reflexivity.
  - intros Hl. apply Hacc. apply l_shape_difference in Hl.
    cbn [In] in *. intuition lia.
Qed.

(** The amended knight claim at b1-c3. *)
Lemma C7_knight_difference_only_witness :
  l_shape 57 42 = true /\ Knight.valid_move 57 42 = Some [42].
Proof.
  split; [reflexivity |].
  apply (C7_knight_difference_only 57 42). reflexivity.
Defined.

(** ** Bishop *)

Lemma py_in_spec (x : Z) (l : list Z) : py_in x l = true <-> x ∈ l.
Proof.
  unfold py_in. rewrite existsb_exists. split.
  - intros (y & Hy & E). apply Z.eqb_eq in E. subst. now apply list_elem_of_In.
  - intros H. exists x. split; [now apply list_elem_of_In | apply Z.eqb_refl].
Qed.

Lemma elem_of_py_range (a b x : Z) : x ∈ py_range a b <-> a <= x < b.
Proof. unfold py_range. rewrite elem_of_seqZ. lia. Qed.

Lemma py_range_cons (a b : Z) :
  a < b -> py_range a b = a :: py_range (a + 1) b.
Proof.
  intros H. unfold py_range. rewrite seqZ_cons by lia.
  f_equal. f_equal; lia.
Qed.

Lemma elem_of_collect (lo hi : Z) (cond : Z -> bool) (x : Z) :
  x ∈ collect lo hi cond <-> lo <= x <= hi /\ cond x = true.
Proof.
  unfold collect. rewrite list_elem_of_filter, elem_of_py_range. intuition lia.
Qed.

Lemma abs_mod_zero (a k : Z) : 0 < k -> Z.abs a mod k = 0 <-> a mod k = 0.
Proof.
  intros Hk. rewrite !Z.mod_divide by lia. apply Z.divide_abs_r.
Qed.

Lemma all_pairs_spec (check : Z -> Z -> bool) :
  all_pairs check = true ->
  forall cur new, on_board cur -> on_board new -> check cur new = true.
Proof.
  unfold all_pairs, on_board. intros H cur new Hc Hn.
  rewrite forallb_forall in H.
  assert (Hin : forall x, 0 <= x <= 63 -> In x (py_range 0 64)).
  { intros x Hx. apply list_elem_of_In, elem_of_py_range. lia. }
  specialize (H cur (Hin cur Hc)). rewrite forallb_forall in H.
  exact (H new (Hin new Hn)).
Qed.

(** When the bishop answers with a list. *)
Lemma bishop_list_iff (cur new : Z) :
  Bishop.valid_move cur new <> None
  <-> cur <> new /\ ((cur - new) mod 7 = 0 \/ (cur - new) mod 9 = 0).
Proof.
  unfold Bishop.valid_move, Bishop.first_iteration.
  destruct (Z.eqb_spec ((cur - new) mod 7) 0) as [H7 | H7].
  - destruct (Z.gtb_spec cur new) as [Hgt | Hle].
    + rewrite (py_range_cons new (cur + 1)) by lia.
      split; [intros _; split; [lia | now left] | discriminate].
    + destruct (Z.gtb_spec new cur) as [Hgt' | Hle'].
      * rewrite (py_range_cons cur (new + 1)) by lia.
        split; [intros _; split; [lia | now left] | discriminate].
      * split; [congruence | intros [Hne _]; lia].
  - destruct (Z.eqb_spec ((cur - new) mod 9) 0) as [H9 | H9].
    + destruct (Z.gtb_spec cur new) as [Hgt | Hle].
      * split; [intros _; split; [lia | now right] | discriminate].
      * destruct (Z.gtb_spec new cur) as [Hgt' | Hle'].
        -- split; [intros _; split; [lia | now right] | discriminate].
        -- split; [congruence | intros [Hne _]; lia].
    + split; [congruence | intros [_ [E | E]]; contradiction].
Qed.

(** The list of the multiple-of-9 branch. *)
Lemma bishop_nine_branch (cur new : Z) :
  (cur - new) mod 7 <> 0 -> (cur - new) mod 9 = 0 -> cur <> new ->
  exists l, Bishop.valid_move cur new = Some l /\
    forall x, x ∈ l
      <-> Z.min cur new <= x <= Z.max cur new /\ (x - cur) mod 9 = 0.
Proof.
  intros H7 H9 Hne. unfold Bishop.valid_move.
  destruct (Z.eqb_spec ((cur - new) mod 7) 0) as [E7 | _]; [contradiction |].
  destruct (Z.eqb_spec ((cur - new) mod 9) 0) as [_ | E9]; [| contradiction].
  destruct (Z.gtb_spec cur new) as [Hgt | Hle].
  - eexists; split; [reflexivity |]. intros x.
    rewrite elem_of_collect, Z.eqb_eq, abs_mod_zero by lia. lia.
  - destruct (Z.gtb_spec new cur) as [Hgt' | Hle']; [| lia].
    eexists; split; [reflexivity |]. intros x.
    rewrite elem_of_collect, Z.eqb_eq, abs_mod_zero by lia. lia.
Qed.

Lemma bishop_diagonal_check_all : all_pairs bishop_diagonal_check = true.
Proof. vm_compute. reflexivity. Qed.

(** C8, counterexample.  h8 (7) and a6 (16) differ by 9 but lie seven files
    and two ranks apart; the bishop's [valid_move] answers with a list. *)
Lemma C8_bishop_accepts_non_diagonal :
  on_board 7 /\ on_board 16 /\
  true_diagonal 7 16 = false /\
  Bishop.valid_move 7 16 = Some [7; 16].
Proof. unfold on_board. repeat split; try lia; reflexivity. Qed.

(** C8, as amended.  For distinct locations the bishop's [valid_move]
    answers with a list exactly when the index difference is a multiple of
    7 or of 9; files and ranks are not looked at.  When the difference is a
    multiple of 9 and not of 7 the list holds exactly the locations between
    origin and destination, both included, at a multiple of 9 from the
    origin; on a true diagonal of the board these are the traversed
    squares. *)
Theorem C8_bishop_difference_only (cur new : Z) :
  (Bishop.valid_move cur new <> None
   <-> cur <> new /\ ((cur - new) mod 7 = 0 \/ (cur - new) mod 9 = 0)) /\
  ((cur - new) mod 7 <> 0 -> (cur - new) mod 9 = 0 -> cur <> new ->
   exists l, Bishop.valid_move cur new = Some l /\
     forall x, x ∈ l
       <-> Z.min cur new <= x <= Z.max cur new /\ (x - cur) mod 9 = 0) /\
  (on_board cur -> on_board new -> true_diagonal cur new = true ->
   (cur - new) mod 7 <> 0 ->
   exists l, Bishop.valid_move cur new = Some l /\
     forall x, x ∈ l <-> x ∈ diagonal_segment cur new).
Proof.
  split; [apply bishop_list_iff |]. split; [apply bishop_nine_branch |].
  intros Hc Hn Hd H7.
  pose proof (all_pairs_spec _ bishop_diagonal_check_all cur new Hc Hn) as Hk.
  unfold bishop_diagonal_check in Hk. rewrite Hd in Hk.
  destruct (Z.eqb_spec ((cur - new) mod 7) 0) as [E | _]; [contradiction |].
  cbn [andb negb] in Hk.
  destruct (Bishop.valid_move cur new) as [l |]; [| discriminate].
  exists l. split; [reflexivity |].
  apply andb_true_iff in Hk as [Hl Hs].
  rewrite forallb_forall in Hl, Hs. intros x. split; intros Hx.
  - apply py_in_spec, Hl, list_elem_of_In, Hx.
  - apply py_in_spec, Hs, list_elem_of_In, Hx.
Qed.

(** The amended bishop claim on the diagonal a8-d5. *)
Lemma C8_bishop_difference_only_witness :
  (on_board 0 /\ on_board 27 /\ true_diagonal 0 27 = true /\
   (0 - 27) mod 7 <> 0 /\ (0 - 27) mod 9 = 0 /\ 0 <> 27) /\
  (exists l, Bishop.valid_move 0 27 = Some l /\
     forall x, x ∈ l <-> Z.min 0 27 <= x <= Z.max 0 27 /\ (x - 0) mod 9 = 0) /\
  (exists l, Bishop.valid_move 0 27 = Some l /\
     forall x, x ∈ l <-> x ∈ diagonal_segment 0 27).
Proof.
  assert (H7 : (0 - 27) mod 7 <> 0) by (vm_compute; discriminate).
  assert (Hb0 : on_board 0) by (unfold on_board; lia).
  assert (Hb27 : on_board 27) by (unfold on_board; lia).
  split; [repeat split; try assumption; try reflexivity; lia |].
  split.
  - apply (C8_bishop_difference_only 0 27); [exact H7 | reflexivity | lia].
  - apply (C8_bishop_difference_only 0 27); [exact Hb0 | exact Hb27 | reflexivity | exact H7].
Defined.

(** ** Case analysis of the two methods *)

(** Splits on the innermost scrutinee of a [match] in [H]. *)
Ltac break_inner H :=
  match type of H with
  | context [match ?x with _ => _ end] =>
      lazymatch x with
      | context [match _ with _ => _ end] => fail
      | _ => destruct x eqn:?
      end
  end.

(** A location comes only from a key of both dictionaries. *)
Lemma get_space_name_as_location_Some b k n :
  get_space_name_as_location b k = Return (Some n) ->
  dict_get k _name_to_location_dict = Some n /\ is_Some (b !! k).
Proof.
  unfold get_space_name_as_location.
  destruct (b !! k); [| discriminate].
  destruct (dict_get k _name_to_location_dict); [| discriminate].
  intros [= ->]. split; [reflexivity | eauto].
Qed.

(** [valid_move] leaves [self] as it is or clears a pawn's flag. *)
Lemma valid_move_self self cur new occ l self' :
  valid_move self cur new occ = (l, self') ->
  self' = self \/ (piece_class self = PawnC /\ self' = clear_first_move self).
Proof.
  unfold valid_move. destruct (piece_class self) eqn:Hc;
    try (intros [= _ <-]; left; reflexivity).
  unfold Pawn.valid_move, Pawn.block.
  intros H. repeat (break_inner H; cbn in H);
    inversion H; subst; auto.
Qed.

Opaque get_space_name_as_location path_blocked valid_move player_of_turn str_in.

(** What a call of [make_move] can do.  Unless it answers [True] it leaves
    everything but piece attributes as it was, and the only attribute it can
    change is the first-move flag of the pawn on the source square.  When it
    answers [True], source and destination are two different squares, the
    source is cleared and the destination holds the moved piece. *)
Lemma make_move_inv g a b res g' :
  make_move a b g = (res, g') ->
  (res <> Return true /\ same_but_objects g g' /\
   (objects g' = objects g \/
    exists r self, _new_board g !! a = Some (Some r) /\
      objects g !! r = Some self /\ piece_class self = PawnC /\
      objects g' = <[r := clear_first_move self]> (objects g))) \/
  (res = Return true /\ exists r,
      _new_board g !! a = Some (Some r) /\ a <> b /\
      is_square a /\ is_square b /\
      is_Some (_new_board g !! b) /\
      _new_board g' = <[a := None]> (<[b := Some r]> (_new_board g)) /\
      _fairy_pieces_stable (_player_1 g') = _fairy_pieces_stable (_player_1 g)).
Proof.
  intros H.
  unfold make_move, bind, gets, board_getitem, deref, deref_opt, lift, raise, return_, ret, store, modify, bind, gets, raise, ret, capture, set_space_occupant, increment_turn,
   bind, gets, raise, ret, modify, return_, ret in H.
  cbn in H.
  repeat (break_inner H; cbn in H).
  all: try match goal with
   | Hv : valid_move _ _ _ _ = (_, _) |- _ =>
       let Hv' := fresh in pose proof (valid_move_self _ _ _ _ _ _ Hv) as Hv'
   end.
  all: try (left; split; [ inversion H; congruence | split; [inversion H; subst; unfold same_but_objects; cbn; tauto |] ]).
  all: try (inversion H; subst; cbn; left; reflexivity).
  all: try (inversion H; subst; cbn;
            match goal with
            | Hs : _ = _ \/ _ |- _ =>
                destruct Hs as [-> | [Hc ->]];
                [left; apply list_insert_id; assumption | right; eauto 10]
            end).
  all: right; (split; [inversion H; reflexivity |]); eexists.
  all: repeat match goal with
       | Hl : get_space_name_as_location _ _ = Return (Some _) |- _ =>
           apply get_space_name_as_location_Some in Hl as [? _]
       end.
  all: split; [reflexivity |].
  all: split;
    [ intros ->; simplify_eq;
      repeat match goal with
        | Hp : player_of_turn _ = _ |- _ => rewrite Hp in *; clear Hp
        end;
      try match goal with
        | Hn : negb (color_eqb ?x ?y) = false |- _ =>
            destruct (color_eqb x y); simplify_eq/=
        end
    | ].
  all: unfold is_square.
  all: repeat (split; [solve [eauto] |]).
  all: inversion H; subst; cbn; split; reflexivity.
Qed.

Transparent get_space_name_as_location path_blocked valid_move player_of_turn str_in.

Lemma str_in_spec x l : str_in x l = true <-> In x l.
Proof.
  unfold str_in. rewrite existsb_exists. split.
  - intros (y & Hy & E). apply String.eqb_eq in E. now subst.
  - intros H. exists x. split; [assumption | apply String.eqb_refl].
Qed.

Lemma list_remove_in x l : In x l -> is_Some (list_remove x l).
Proof.
  induction l as [| y l IH]; cbn; [tauto |].
  intros [-> | H].
  - rewrite String.eqb_refl. eauto.
  - destruct (String.eqb y x); [eauto |].
    destruct (IH H) as [r ->]. eauto.
Qed.

Opaque get_space_name_as_location player_of_turn str_in String.eqb list_remove.

(** What a call of [entry_fairy_piece] can do.  Unless it answers [True]
    the state is as it was.  When it answers [True], the piece type is a
    stable key, the entry square was an empty square and now holds what
    the stable key holds, and the kind has left [_player_1]'s stable. *)
Lemma entry_fairy_piece_inv g t s res g' :
  entry_fairy_piece t s g = (res, g') ->
  (res <> Return true /\ g' = g) \/
  (res = Return true /\ exists kind v l',
      In (t, kind) [("F", "falcon"); ("H", "hunter");
                    ("f", "falcon"); ("h", "hunter")] /\
      _new_board g !! t = Some v /\
      _new_board g !! s = Some None /\
      is_square s /\
      In kind (_fairy_pieces_stable (_player_1 g)) /\
      list_remove kind (_fairy_pieces_stable (_player_1 g)) = Some l' /\
      _new_board g' = <[s := v]> (_new_board g) /\
      _fairy_pieces_stable (_player_1 g') = l' /\
      objects g' = objects g /\
      _turn g' = _turn g + 1).
Proof.
  intros H.
  unfold entry_fairy_piece, entry_block, enter, remove_fairy_piece, bind, gets, board_getitem, lift, raise, return_, ret, modify, set_space_occupant, increment_turn,
   bind, gets, raise, ret, modify, return_, ret in H.
  cbn in H.
  repeat (break_inner H; cbn in H).
  all: try (left; split; [ inversion H; congruence | inversion H; reflexivity ]).
  all: repeat match goal with
       | Hb : _ && _ = true |- _ => apply andb_true_iff in Hb as [? ?]
       | Hs : str_in _ _ = true |- _ => apply str_in_spec in Hs
       | He : String.eqb _ _ = true |- _ => apply String.eqb_eq in He; subst
       | Hl : get_space_name_as_location _ _ = Return (Some _) |- _ =>
           apply get_space_name_as_location_Some in Hl as [? _]
       end.
  all: try match goal with
       | Hi : In ?k ?l, Hr : list_remove ?k ?l = None |- _ =>
           destruct (list_remove_in k l Hi) as [? ?]; congruence
       end.
  all: match goal with
       | Hr : list_remove ?k _ = Some ?l, Hx : context [<[_ := ?v]> _] |- _ =>
           right; (split; [inversion Hx; reflexivity |]); exists k, v, l
       end.
  all: match goal with
       | Hn : is_None ?o = true |- _ => destruct o; [discriminate Hn |]
       end.
  all: unfold is_square.
  all: (split; [cbn; tauto |]).
  all: repeat (split; [solve [eauto] |]).
  all: inversion H; subst; cbn; repeat split; reflexivity.
Qed.

Transparent get_space_name_as_location player_of_turn str_in String.eqb list_remove.

(** ** The board invariant *)

Lemma dict_get_In k d v : dict_get k d = Some v -> In k (map fst d).
Proof.
  induction d as [| [k' v'] d IH]; cbn; [discriminate |].
  destruct (String.eqb_spec k k'); [intros _; left; congruence | auto].
Qed.

Lemma is_square_In s : is_square s -> In s square_keys.
Proof.
  intros [v Hv]. apply dict_get_In in Hv.
  replace square_keys with (map fst _name_to_location_dict);
    [assumption | vm_compute; reflexivity].
Qed.

Lemma is_square_not_stable s : is_square s -> ~ In s stable_keys.
Proof.
  intros [v Hv] Hin. cbn in Hin.
  destruct Hin as [<- | [<- | [<- | [<- | []]]]]; vm_compute in Hv; discriminate.
Qed.

Lemma not_on_squares_spec bd r :
  not_on_squares_check bd r = true ->
  forall s r', is_square s -> bd !! s = Some (Some r') -> r' <> r.
Proof.
  unfold not_on_squares_check. rewrite forallb_forall.
  intros H s r' Hs Hl. specialize (H s (is_square_In s Hs)).
  cbv beta in H. rewrite Hl in H. intros ->. rewrite Nat.eqb_refl in H. discriminate.
Qed.

Lemma squares_distinct_spec bd :
  squares_distinct_check bd = true ->
  forall s1 s2 r, is_square s1 -> is_square s2 ->
    bd !! s1 = Some (Some r) -> bd !! s2 = Some (Some r) -> s1 = s2.
Proof.
  unfold squares_distinct_check. rewrite forallb_forall.
  intros H s1 s2 r H1 H2 L1 L2.
  specialize (H s1 (is_square_In s1 H1)). rewrite forallb_forall in H.
  specialize (H s2 (is_square_In s2 H2)). cbv beta in H.
  rewrite L1, L2, Nat.eqb_refl in H.
  cbn in H. now apply String.eqb_eq.
Qed.

Lemma keys_check_spec bd :
  keys_check bd = true -> forall k, In k all_keys -> is_Some (bd !! k).
Proof.
  unfold keys_check. rewrite forallb_forall. intros H k Hin.
  specialize (H k Hin). cbv beta in H.
  destruct (bd !! k); [eauto | discriminate].
Qed.

(** A new match satisfies the invariant. *)
Lemma board_inv_new_game : board_inv new_game.
Proof.
  split.
  - apply keys_check_spec. vm_compute. reflexivity.
  - vm_compute. repeat split; reflexivity.
  - apply squares_distinct_spec. vm_compute. reflexivity.
  - vm_compute. auto.
  - intros _ s r Hs Hl. split.
    + revert s r Hs Hl. apply not_on_squares_spec. vm_compute. reflexivity.
    + revert s r Hs Hl. apply not_on_squares_spec. vm_compute. reflexivity.
  - intros _ s r Hs Hl. split.
    + revert s r Hs Hl. apply not_on_squares_spec. vm_compute. reflexivity.
    + revert s r Hs Hl. apply not_on_squares_spec. vm_compute. reflexivity.
Qed.

Lemma square_ne_stable s k : is_square s -> In k stable_keys -> s <> k.
Proof. intros Hs Hk ->. exact (is_square_not_stable k Hs Hk). Qed.

(** [make_move] keeps the invariant, whatever it answers. *)
Lemma board_inv_make_move g a b res g' :
  board_inv g -> make_move a b g = (res, g') -> board_inv g'.
Proof.
  intros [Hk Hst Hsq Hl Hf Hh] H.
  apply make_move_inv in H as
    [(_ & (_ & _ & Hp & _ & _ & Hb) & _)
    |(_ & r & Ha & Hne & Sa & Sb & Ib & Hb & Hfs)].
  { unfold board_inv. rewrite Hb, Hp. split; assumption. }
  unfold board_inv. rewrite Hb, Hfs.
  assert (Hstab : forall k, In k stable_keys ->
            <[a:=None]> (<[b:=Some r]> (_new_board g)) !! k = _new_board g !! k).
  { intros k Hin. rewrite !lookup_insert_ne; [reflexivity | |];
      apply square_ne_stable; assumption. }
  assert (Hold : forall s r', is_square s ->
            <[a:=None]> (<[b:=Some r]> (_new_board g)) !! s = Some (Some r') ->
            (s = b /\ r' = r) \/ (s <> a /\ s <> b /\ _new_board g !! s = Some (Some r'))).
  { intros s r' Hs Hlk. rewrite lookup_insert in Hlk.
    case_decide; [discriminate |]. rewrite lookup_insert in Hlk.
    case_decide; [left; split; congruence | right; auto]. }
  split.
  - intros k Hin. rewrite !lookup_insert. repeat case_decide; eauto.
  - destruct Hst as (H1 & H2 & H3 & H4).
    rewrite !Hstab by (cbn; tauto). auto.
  - intros s1 s2 r' H1 H2 L1 L2.
    destruct (Hold _ _ H1 L1) as [[-> ->] | (N1 & N1' & L1')];
    destruct (Hold _ _ H2 L2) as [[-> E] | (N2 & N2' & L2')];
      try reflexivity.
    + exfalso. apply N2. exact (Hsq _ _ _ H2 Sa L2' Ha).
    + subst r'. exfalso. apply N1. exact (Hsq _ _ _ H1 Sa L1' Ha).
    + exact (Hsq _ _ _ H1 H2 L1' L2').
  - assumption.
  - intros Hin s r' Hs Hlk.
    destruct (Hold _ _ Hs Hlk) as [[-> ->] | (_ & _ & L)]; [| eauto].
    exact (Hf Hin a r Sa Ha).
  - intros Hin s r' Hs Hlk.
    destruct (Hold _ _ Hs Hlk) as [[-> ->] | (_ & _ & L)]; [| eauto].
    exact (Hh Hin a r Sa Ha).
Qed.

(** Placing a stabled fairy piece on an empty square and removing its kind
    from the stable keeps the invariant. *)
Lemma board_inv_of_enter bd st s r kind l' :
  board_inv_of bd st -> is_square s ->
  list_remove kind st = Some l' -> In kind st ->
  (kind = "falcon" /\ (r = 16 \/ r = 34)%nat) \/
  (kind = "hunter" /\ (r = 17 \/ r = 35)%nat) ->
  board_inv_of (<[s := Some r]> bd) l'.
Proof.
  intros [Hk Hst Hsq Hl Hf Hh] Hs Hrm Hin Hkind.
  assert (Hold : forall s' r', is_square s' ->
            <[s:=Some r]> bd !! s' = Some (Some r') ->
            (s' = s /\ r' = r) \/ (s' <> s /\ bd !! s' = Some (Some r'))).
  { intros s' r' Hs' Hlk. rewrite lookup_insert in Hlk.
    case_decide; [left; split; congruence | right; auto]. }
  assert (Hfresh : forall s', is_square s' -> bd !! s' = Some (Some r) -> False).
  { intros s' Hs' Hlk.
    destruct Hkind as [[-> Hr] | [-> Hr]].
    - destruct (Hf Hin s' r Hs' Hlk). lia.
    - destruct (Hh Hin s' r Hs' Hlk). lia. }
  assert (Hsub : forall x, In x l' -> In x st /\
            (x = kind -> False)).
  { cbn in Hl.
    destruct Hl as [<- | [<- | [<- | [<- | []]]]];
    destruct Hkind as [[-> _] | [-> _]];
    vm_compute in Hrm; try discriminate; injection Hrm as <-;
    cbn; intros x Hx; intuition (subst; try discriminate; auto). }
  split.
  - intros k Hi. rewrite lookup_insert. case_decide; eauto.
  - destruct Hst as (H1 & H2 & H3 & H4).
    rewrite !lookup_insert_ne by (apply square_ne_stable; [assumption | cbn; tauto]).
    auto.
  - intros s1 s2 r' H1 H2 L1 L2.
    destruct (Hold _ _ H1 L1) as [[-> ->] | (N1 & L1')];
    destruct (Hold _ _ H2 L2) as [[-> E] | (N2 & L2')];
      try reflexivity.
    + exfalso. exact (Hfresh _ H2 L2').
    + subst r'. exfalso. exact (Hfresh _ H1 L1').
    + exact (Hsq _ _ _ H1 H2 L1' L2').
  - cbn in Hl.
    destruct Hl as [<- | [<- | [<- | [<- | []]]]];
    destruct Hkind as [[-> _] | [-> _]];
    vm_compute in Hrm; try discriminate; injection Hrm as <-;
    cbn; tauto.
  - intros Hi s' r' Hs' Hlk. destruct (Hsub _ Hi) as [Hi' Hne].
    destruct (Hold _ _ Hs' Hlk) as [[-> ->] | (_ & L)]; [| eauto].
    destruct Hkind as [[-> Hr] | [-> Hr]]; [exfalso; auto | lia].
  - intros Hi s' r' Hs' Hlk. destruct (Hsub _ Hi) as [Hi' Hne].
    destruct (Hold _ _ Hs' Hlk) as [[-> ->] | (_ & L)]; [| eauto].
    destruct Hkind as [[-> Hr] | [-> Hr]]; [lia | exfalso; auto].
Qed.

(** [entry_fairy_piece] keeps the invariant, whatever it answers. *)
Lemma board_inv_entry g t s res g' :
  board_inv g -> entry_fairy_piece t s g = (res, g') -> board_inv g'.
Proof.
  intros Hi H.
  apply entry_fairy_piece_inv in H as
    [(_ & ->) | (_ & kind & v & l' & Hin & Ht & Hs & Sq & Hk & Hrm & Hb & Hl & _)];
    [assumption |].
  unfold board_inv. rewrite Hb, Hl.
  pose proof (inv_stable _ _ Hi) as (H1 & H2 & H3 & H4).
  cbn in Hin.
  destruct Hin as [E | [E | [E | [E | []]]]]; injection E as <- <-;
    rewrite Ht in *; simplify_eq;
    (eapply board_inv_of_enter; [exact Hi | exact Sq | exact Hrm | exact Hk |]);
    [left | right | left | right]; (split; [reflexivity | lia]).
Qed.

(** The invariant holds in every reachable state. *)
Lemma reachable_board_inv g : reachable g -> board_inv g.
Proof.
  induction 1 as [| g c _ IH]; [apply board_inv_new_game |].
  destruct (run c g) as [res g'] eqn:E. cbn.
  destruct c; cbn in E.
  - exact (board_inv_make_move _ _ _ _ _ IH E).
  - exact (board_inv_entry _ _ _ _ _ IH E).
Qed.

(** ** Square names and locations *)

Lemma get_space_name_as_location_key bd s i :
  is_Some (bd !! s) -> dict_get s _name_to_location_dict = Some i ->
  get_space_name_as_location bd s = Return (Some i).
Proof.
  intros [v Hv] Hd. unfold get_space_name_as_location. now rewrite Hv, Hd.
Qed.

Lemma name_round_trip_all :
  forallb name_round_trip_check standard_squares = true.
Proof. vm_compute. reflexivity. Qed.

Lemma index_round_trip_all :
  forallb index_round_trip_check (py_range 0 64) = true.
Proof. vm_compute. reflexivity. Qed.

(** C9.  In every state reachable from a new match, each of the 64
    standard square names is mapped by [get_space_name_as_location] to a
    location in 0..63 that [get_location_as_space_name] maps back to the
    name; and each location in 0..63 is mapped to a standard square name
    that is mapped back to the location.  The two maps are inverse
    bijections between the 64 names and the 64 locations. *)
Theorem C9_square_name_round_trip (g : ChessVar) :
  reachable g ->
  (forall s, In s standard_squares ->
     exists i, on_board i /\
       get_space_name_as_location (_new_board g) s = Return (Some i) /\
       get_location_as_space_name i = Some s) /\
  (forall i, on_board i ->
     exists s, In s standard_squares /\
       get_location_as_space_name i = Some s /\
       get_space_name_as_location (_new_board g) s = Return (Some i)).
Proof.
  intros Hr. pose proof (inv_keys _ _ (reachable_board_inv g Hr)) as Hk.
  split.
  - intros s Hs.
    pose proof name_round_trip_all as H. rewrite forallb_forall in H.
    specialize (H s Hs). unfold name_round_trip_check in H.
    apply andb_true_iff in H as [Hin H]. apply str_in_spec in Hin.
    destruct (dict_get s _name_to_location_dict) as [i |] eqn:Hd; [| discriminate].
    apply andb_true_iff in H as [Hb H]. apply andb_true_iff in Hb as [H0 H63].
    destruct (get_location_as_space_name i) as [s' |] eqn:Hn; [| discriminate].
    apply String.eqb_eq in H. subst s'.
    exists i. split; [unfold on_board; lia |]. split; [| exact Hn].
    apply get_space_name_as_location_key; auto.
  - intros i Hi.
    pose proof index_round_trip_all as H. rewrite forallb_forall in H.
    assert (Hin : In i (py_range 0 64)).
    { apply list_elem_of_In, elem_of_py_range. unfold on_board in Hi. lia. }
    specialize (H i Hin). unfold index_round_trip_check in H.
    destruct (get_location_as_space_name i) as [s |] eqn:Hn; [| discriminate].
    apply andb_true_iff in H as [Hs H]. apply andb_true_iff in Hs as [Hs Ha].
    apply str_in_spec in Hs, Ha.
    destruct (dict_get s _name_to_location_dict) as [j |] eqn:Hd; [| discriminate].
    apply Z.eqb_eq in H. subst j.
    exists s. split; [assumption |]. split; [reflexivity |].
    apply get_space_name_as_location_key; auto.
Qed.

(** The round trip of e4 in a new match. *)
Lemma C9_square_name_round_trip_witness :
  exists i, on_board i /\
    get_space_name_as_location (_new_board new_game) "e4" = Return (Some i) /\
    get_location_as_space_name i = Some "e4".
Proof.
  apply (C9_square_name_round_trip new_game reachable_new).
  apply str_in_spec. vm_compute. reflexivity.
Defined.

(** ** One square for each piece *)

(** Every square key has a location. *)
Lemma In_is_square s : In s square_keys -> is_square s.
Proof.
  assert (H : squares_check = true) by (vm_compute; reflexivity).
  unfold squares_check in H. rewrite forallb_forall in H.
  intros Hin. specialize (H s Hin). cbv beta in H. unfold is_square.
  generalize dependent (dict_get s _name_to_location_dict).
  intros [v |] Hv; [eauto | discriminate].
Qed.

(** C10, as amended.  In every state reachable from a new match no two
    of the 64 squares hold the same piece object, and no two stable keys
    do.  A successful move leaves its source square empty.  A successful
    fairy entry leaves the piece on its entry square and on no other
    square, and the stable key goes on holding it: the stable keys are
    never cleared. *)
Theorem C10_one_square_per_piece (g : ChessVar) :
  reachable g ->
  (forall s1 s2 r, In s1 square_keys -> In s2 square_keys ->
     _new_board g !! s1 = Some (Some r) ->
     _new_board g !! s2 = Some (Some r) -> s1 = s2) /\
  (forall k1 k2 r, In k1 stable_keys -> In k2 stable_keys ->
     _new_board g !! k1 = Some (Some r) ->
     _new_board g !! k2 = Some (Some r) -> k1 = k2) /\
  (forall a b g', make_move a b g = (Return true, g') ->
     _new_board g' !! a = Some None) /\
  (forall t s g', entry_fairy_piece t s g = (Return true, g') ->
     exists r, In t stable_keys /\ In s square_keys /\
       _new_board g' !! t = Some (Some r) /\
       _new_board g' !! s = Some (Some r) /\
       forall s', In s' square_keys ->
         _new_board g' !! s' = Some (Some r) -> s' = s).
Proof.
  intros Hr. pose proof (reachable_board_inv g Hr) as Hi.
  split; [| split; [| split]].
  - intros s1 s2 r H1 H2.
    exact (inv_squares _ _ Hi s1 s2 r (In_is_square _ H1) (In_is_square _ H2)).
  - pose proof (inv_stable _ _ Hi) as (H1 & H2 & H3 & H4).
    intros k1 k2 r I1 I2 L1 L2. cbn in I1, I2.
    destruct I1 as [<- | [<- | [<- | [<- | []]]]];
    destruct I2 as [<- | [<- | [<- | [<- | []]]]];
    try reflexivity; congruence.
  - intros a b g' H.
    apply make_move_inv in H as [(Hn & _) | (_ & r & _ & _ & _ & _ & _ & Hb & _)];
      [congruence |].
    rewrite Hb. apply lookup_insert_eq.
  - intros t s g' H.
    pose proof (board_inv_entry _ _ _ _ _ Hi H) as Hi'.
    apply entry_fairy_piece_inv in H as
      [(Hn & _) | (_ & kind & v & l' & Hin & Ht & Hs & Sq & _ & _ & Hb & _)];
      [congruence |].
    assert (Hts : In t stable_keys).
    { cbn in Hin. cbn.
      destruct Hin as [E | [E | [E | [E | []]]]]; injection E as <- _; tauto. }
    assert (Hv : exists r, v = Some r).
    { pose proof (inv_stable _ _ Hi) as (H1 & H2 & H3 & H4). cbn in Hts.
      destruct Hts as [<- | [<- | [<- | [<- | []]]]];
        rewrite Ht in *; simplify_eq; eauto. }
    destruct Hv as [r ->]. exists r.
    split; [assumption |]. split; [apply is_square_In; assumption |].
    split; [| split].
    + rewrite Hb, lookup_insert_ne; [assumption |].
      apply square_ne_stable; assumption.
    + rewrite Hb. apply lookup_insert_eq.
    + intros s' Hs' Hl.
      apply (inv_squares _ _ Hi' s' s r); [apply In_is_square, Hs' | assumption | assumption |].
      rewrite Hb. apply lookup_insert_eq.
Qed.

(** The states after a sequence of calls are reachable. *)
Lemma reachable_play (cs : list call) (g : ChessVar) :
  reachable g -> reachable (play cs g).
Proof.
  revert g. induction cs as [| c cs IH]; intros g Hg; [exact Hg |].
  cbn. apply IH. now apply reachable_step.
Qed.

Lemma reachable_hunter_entered : reachable hunter_entered.
Proof. unfold hunter_entered. apply reachable_play, reachable_new. Qed.

(** C10, counterexample.  [hunter_entered] is reachable, and there the
    square a2 and the stable key H hold the same piece object, white's
    hunter. *)
Lemma C10_entered_piece_in_two_slots :
  reachable hunter_entered /\
  "a2" <> "H" /\
  In "a2" square_keys /\ In "H" stable_keys /\
  _new_board hunter_entered !! "a2" = Some (Some 35%nat) /\
  _new_board hunter_entered !! "H" = Some (Some 35%nat) /\
  objects hunter_entered !! 35%nat = Some (mkPiece HunterC white true).
Proof.
  split; [apply reachable_hunter_entered |].
  split; [discriminate |].
  split; [apply str_in_spec; vm_compute; reflexivity |].
  split; [apply str_in_spec; vm_compute; reflexivity |].
  vm_compute. repeat split; reflexivity.
Qed.

(** The amended claim in [hunter_entered]: the hunter stands on a2 and on
    no other square. *)
Lemma C10_one_square_per_piece_witness :
  reachable hunter_entered /\
  (forall s r, In s square_keys ->
     _new_board hunter_entered !! s = Some (Some r) ->
     _new_board hunter_entered !! "a2" = Some (Some r) -> s = "a2").
Proof.
  split; [apply reachable_hunter_entered |].
  intros s r Hs.
  apply (proj1 (C10_one_square_per_piece hunter_entered
                  reachable_hunter_entered) s "a2" r Hs).
  apply str_in_spec. vm_compute. reflexivity.
Defined.

(** ** What a rejected move leaves unchanged *)

(** A call of [make_move] that answers [False] leaves the turn counter, the
    game state, both players and every board slot as they were; of the
    piece objects only the pawn on the source square can differ, by its
    first-move flag. *)
Lemma make_move_rejected_frame (g g' : ChessVar) (a b : string) :
  make_move a b g = (Return false, g') ->
  same_but_objects g g' /\
  (objects g' = objects g \/
   exists r self, _new_board g !! a = Some (Some r) /\
     objects g !! r = Some self /\ piece_class self = PawnC /\
     objects g' = <[r := clear_first_move self]> (objects g)).
Proof.
  intros H. apply make_move_inv in H as [(_ & Hs & Ho) | (E & _)];
    [split; assumption | discriminate].
Qed.

(** * Further properties *)

(** ** Accepted calls, step by step *)

Lemma color_eqb_eq c1 c2 : color_eqb c1 c2 = true <-> c1 = c2.
Proof. destruct c1, c2; cbn; split; congruence. Qed.

Opaque get_space_name_as_location path_blocked valid_move player_of_turn str_in dict_get _name_to_location_dict.

(** Everything an accepted [make_move] has tested and done. *)
Lemma make_move_accepted g a b g' :
  make_move a b g = (Return true, g') ->
  exists r self cl nl oref occ l self',
    _game_state g = UNFINISHED /\
    _new_board g !! a = Some (Some r) /\
    objects g !! r = Some self /\
    get_color self = player_of_turn (_turn g) /\
    dict_get a _name_to_location_dict = Some cl /\
    dict_get b _name_to_location_dict = Some nl /\
    _new_board g !! b = Some oref /\
    match oref with
    | Some r0 => objects g !! r0 = occ /\ occ <> None
    | None => occ = None
    end /\
    valid_move self cl nl occ = (Some l, self') /\
    path_blocked (_new_board g) nl cl l = Return false /\
    (forall opp, occ = Some opp -> get_color opp <> player_of_turn (_turn g)) /\
    _turn g' = _turn g + 1 /\
    _new_board g' = <[a := None]> (<[b := Some r]> (_new_board g)) /\
    objects g' = <[r := self']> (objects g) /\
    _piece_generation_counter g' = _piece_generation_counter g /\
    match occ, player_of_turn (_turn g) with
    | None, _ => _player_1 g' = _player_1 g /\ _player_2 g' = _player_2 g
    | Some opp, white =>
        _player_1 g' = _player_1 g /\
        _player_2 g' = credited (get_name opp) (_player_2 g)
    | Some opp, black =>
        _player_1 g' = credited (get_name opp) (_player_1 g) /\
        _player_2 g' = _player_2 g
    end /\
    _game_state g' = outcome_of (_player_1 g') (_player_2 g') UNFINISHED.
Proof.
  intros H.
  unfold make_move, bind, gets, board_getitem, deref, deref_opt, lift, raise,
    return_, ret, store, modify, bind, gets, raise, ret, capture,
    set_space_occupant, increment_turn, bind, gets, raise, ret, modify,
    return_, ret in H.
  cbn in H.
  repeat (break_inner H; cbn in H); try discriminate H.
  all: repeat match goal with
       | Hl : get_space_name_as_location _ _ = Return (Some _) |- _ =>
           apply get_space_name_as_location_Some in Hl as [? _]
       end.
  all: injection H as <-.
  all: do 8 eexists.
  all: unfold outcome_of, credited; cbn.
  all: repeat (split; [solve [ eassumption | reflexivity
         | split; [eassumption | discriminate]
         | match goal with
           | Hn : negb (color_eqb _ _) = false |- _ =>
               apply negb_false_iff, color_eqb_eq in Hn; exact Hn
           end ] |]).
  all: split;
    [ intros opp Ho; try discriminate Ho; injection Ho as <-; intros Hc;
      match goal with
      | Hf : color_eqb (get_color _) _ = false |- _ =>
          rewrite Hc in Hf; discriminate Hf
      end |].
  all: repeat (split; [reflexivity |]).
  all: repeat match goal with
       | Hk : str_in _ _ = _ |- _ => rewrite ?Hk; clear Hk
       end.
  all: repeat split; first [reflexivity | assumption].
Qed.

Transparent get_space_name_as_location path_blocked valid_move player_of_turn str_in dict_get _name_to_location_dict.

Opaque get_space_name_as_location player_of_turn str_in String.eqb list_remove dict_get _name_to_location_dict.

(** Everything an accepted [entry_fairy_piece] has tested and done. *)
Lemma entry_accepted g t s g' :
  entry_fairy_piece t s g = (Return true, g') ->
  exists n kind v l',
    dict_get s _name_to_location_dict = Some n /\
    _new_board g !! s = Some None /\
    ((player_of_turn (_turn g) = white /\ n > 47 /\
      In (t, kind) [("F", "falcon"); ("H", "hunter")]) \/
     (player_of_turn (_turn g) = black /\ n < 16 /\
      In (t, kind) [("f", "falcon"); ("h", "hunter")])) /\
    _new_board g !! t = Some v /\
    In kind (_fairy_pieces_stable (_player_1 g)) /\
    list_remove kind (_fairy_pieces_stable (_player_1 g)) = Some l' /\
    _new_board g' = <[s := v]> (_new_board g) /\
    _player_1 g' =
      mkPlayer (_name (_player_1 g)) (_player_color (_player_1 g))
        (_active_pieces (_player_1 g)) (_captured_pieces (_player_1 g)) l' /\
    _player_2 g' = _player_2 g /\
    objects g' = objects g /\
    _turn g' = _turn g + 1 /\
    _piece_generation_counter g' = _piece_generation_counter g /\
    _game_state g' = outcome_of (_player_1 g) (_player_2 g) (_game_state g).
Proof.
  intros H.
  unfold entry_fairy_piece, entry_block, enter, remove_fairy_piece, bind, gets,
    board_getitem, lift, raise, return_, ret, modify, set_space_occupant,
    increment_turn, bind, gets, raise, ret, modify, return_, ret in H.
  cbn in H.
  repeat (break_inner H; cbn in H); try discriminate H.
  all: repeat match goal with
       | Hb : _ && _ = true |- _ => apply andb_true_iff in Hb as [? ?]
       | Hs : str_in _ (_fairy_pieces_stable _) = true |- _ =>
           apply str_in_spec in Hs
       | He : String.eqb _ _ = true |- _ => apply String.eqb_eq in He; subst
       | Hl : get_space_name_as_location _ _ = Return (Some _) |- _ =>
           apply get_space_name_as_location_Some in Hl as [? _]
       | Hn : is_None ?o = true |- _ => destruct o; [discriminate Hn | clear Hn]
       | Hz : (_ >? _)%Z = true |- _ => apply Z.gtb_lt in Hz
       | Hz : (_ <? _)%Z = true |- _ => apply Z.ltb_lt in Hz
       end.
  all: injection H as <-.
  all: match goal with
       | Hr : list_remove ?k _ = Some ?l |- _ =>
           eexists; exists k; eexists; exists l
       end.
  all: unfold outcome_of; cbn.
  all: split; [eassumption |]; split; [reflexivity |].
  all: split; [first [left; split; [reflexivity |]; split; [lia | cbn; tauto]
                     | right; split; [reflexivity |]; split; [lia | cbn; tauto]] |].
  all: repeat (split; [first [eassumption | reflexivity] |]).
  all: repeat match goal with
       | Hk : str_in _ _ = _ |- _ => rewrite ?Hk; clear Hk
       end.
  all: reflexivity.
Qed.

Transparent get_space_name_as_location player_of_turn str_in String.eqb list_remove dict_get _name_to_location_dict.

(** ** The move sets of the pieces *)

Lemma king_accepts_iff (cur new : Z) :
  King.valid_move cur new = Some [new]
  <-> In (Z.abs (cur - new)) [1; 7; 8; 9].
Proof.
  unfold King.valid_move, div_is_one. cbn [In].
  destruct (Z.eqb_spec (Z.abs (cur - new)) 9);
  destruct (Z.eqb_spec (Z.abs (cur - new)) 8);
  destruct (Z.eqb_spec (Z.abs (cur - new)) 7);
  destruct (Z.eqb_spec (cur + 1) new);
  destruct (Z.eqb_spec (cur - 1) new);
  cbn; split; intros H; try reflexivity; try discriminate; lia.
Qed.

Lemma adjacent_difference (cur new : Z) :
  adjacent cur new = true -> In (Z.abs (cur - new)) [1; 7; 8; 9].
Proof.
  unfold adjacent, file_delta, row_delta, file_of, row_of. cbn [In].
  pose proof (Z.div_mod cur 8 ltac:(lia)) as Hc.
  pose proof (Z.div_mod new 8 ltac:(lia)) as Hn.
  pose proof (Z.mod_pos_bound cur 8 ltac:(lia)) as Bc.
  pose proof (Z.mod_pos_bound new 8 ltac:(lia)) as Bn.
  rewrite !andb_true_iff, negb_true_iff, !Z.leb_le, Z.eqb_neq.
  generalize dependent (cur / 8). generalize dependent (cur mod 8).
  generalize dependent (new / 8). generalize dependent (new mod 8).
  intros; lia.
Qed.

Lemma king_answers (cur new : Z) :
  King.valid_move cur new = Some [new] \/ King.valid_move cur new = None.
Proof.
  unfold King.valid_move.
  destruct (_ || _); [now left |]. destruct (_ || _); [now left | now right].
Qed.

(** X1.  [King.valid_move] looks at the absolute difference of the two
    locations and at nothing else: the move is accepted, with the
    one-element list [[new]], exactly when the difference is 1, 7, 8 or 9,
    and rejected otherwise.  Every move to an adjacent square is among the
    accepted ones. *)
Theorem X1_king_one_step (cur new : Z) :
  (King.valid_move cur new = Some [new]
   <-> In (Z.abs (cur - new)) [1; 7; 8; 9]) /\
  (King.valid_move cur new = None
   <-> ~ In (Z.abs (cur - new)) [1; 7; 8; 9]) /\
  (adjacent cur new = true -> King.valid_move cur new = Some [new]).
Proof.
  pose proof (king_accepts_iff cur new) as Hacc.
  split; [exact Hacc |]. split.
  - split.
    + intros Hn Hin. apply Hacc in Hin. congruence.
    + intros Hn. destruct (king_answers cur new) as [E | E]; [| exact E].
      exfalso. apply Hn, Hacc, E.
  - intros Ha. apply Hacc, adjacent_difference, Ha.
Qed.

(** X1 at a concrete input. *)
Lemma X1_king_one_step_witness :
  adjacent 60 52 = true /\ King.valid_move 60 52 = Some [52].
Proof.
  split; [reflexivity |]. apply (X1_king_one_step 60 52). reflexivity.
Defined.

Lemma rook_shape_all : all_pairs rook_shape_check = true.
Proof. vm_compute. reflexivity. Qed.

(** X2.  On the board, [Rook.valid_move] rejects a pair of squares
    exactly when they share neither file nor row. *)
Theorem X2_rook_rejects_iff (cur new : Z) :
  on_board cur -> on_board new ->
  (Rook.valid_move cur new = None
   <-> file_of cur <> file_of new /\ row_of cur <> row_of new).
Proof.
  intros Hc Hn.
  pose proof (all_pairs_spec _ rook_shape_all cur new Hc Hn) as H.
  unfold rook_shape_check in H. apply Bool.eqb_prop in H.
  split.
  - intros E. rewrite E in H. cbn in H. symmetry in H.
    apply andb_true_iff in H as [H1 H2].
    apply negb_true_iff in H1, H2. apply Z.eqb_neq in H1, H2. auto.
  - intros [H1 H2]. apply Z.eqb_neq in H1, H2. rewrite H1, H2 in H. cbn in H.
    destruct (Rook.valid_move cur new); [discriminate | reflexivity].
Qed.

(** X2 at a concrete input. *)
Lemma X2_rook_rejects_iff_witness :
  on_board 56 /\ on_board 41 /\ Rook.valid_move 56 41 = None.
Proof.
  assert (H56 : on_board 56) by (unfold on_board; lia).
  assert (H41 : on_board 41) by (unfold on_board; lia).
  split; [exact H56 |]. split; [exact H41 |].
  apply (X2_rook_rejects_iff 56 41 H56 H41). split; vm_compute; discriminate.
Defined.

Lemma rook_leftwards_all : all_pairs rook_leftwards_check = true.
Proof. vm_compute. reflexivity. Qed.

(** X3.  The lists of [Rook.valid_move] where it builds them: for
    two distinct locations a multiple of 8 apart the list holds exactly the
    locations between the two, both included, that are a multiple of 8
    from the origin; for a row move towards a lower location it is the
    whole segment from the destination to the origin. *)
Theorem X3_rook_paths (cur new : Z) :
  ((cur - new) mod 8 = 0 -> cur <> new ->
   exists l, Rook.valid_move cur new = Some l /\
     forall x, x ∈ l
       <-> Z.min cur new <= x <= Z.max cur new /\ (x - cur) mod 8 = 0) /\
  (on_board cur -> on_board new -> row_of cur = row_of new -> new < cur ->
   Rook.valid_move cur new = Some (py_range new (cur + 1))).
Proof.
  split.
  - intros H8 Hne. unfold Rook.valid_move. rewrite H8. cbn [Z.eqb].
    assert (Hsym : forall x, (cur - x) mod 8 = 0 <-> (x - cur) mod 8 = 0).
    { intros x. rewrite !Z.mod_divide by lia.
      replace (x - cur) with (- (cur - x)) by lia.
      symmetry. apply Z.divide_opp_r. }
    destruct (Z.ltb_spec cur new).
    + eexists; split; [reflexivity |]. intros x.
      rewrite elem_of_collect, Z.eqb_eq, Hsym. lia.
    + destruct (Z.gtb_spec cur new); [| lia].
      eexists; split; [reflexivity |]. intros x.
      rewrite elem_of_collect, Z.eqb_eq, Hsym. lia.
  - intros Hc Hn Hr Hlt.
    pose proof (all_pairs_spec _ rook_leftwards_all cur new Hc Hn) as H.
    unfold rook_leftwards_check in H.
    apply Z.eqb_eq in Hr. apply Z.ltb_lt in Hlt. rewrite Hr, Hlt in H.
    cbn [andb] in H. apply bool_decide_eq_true in H. exact H.
Qed.

(** X3 at a concrete input. *)
Lemma X3_rook_paths_witness :
  ((56 - 40) mod 8 = 0 /\ 56 <> 40 /\
   exists l, Rook.valid_move 56 40 = Some l /\
     forall x, x ∈ l
       <-> Z.min 56 40 <= x <= Z.max 56 40 /\ (x - 56) mod 8 = 0) /\
  (on_board 47 /\ on_board 40 /\ row_of 47 = row_of 40 /\ 40 < 47 /\
   Rook.valid_move 47 40 = Some (py_range 40 (47 + 1))).
Proof.
  assert (H47 : on_board 47) by (unfold on_board; lia).
  assert (H40 : on_board 40) by (unfold on_board; lia).
  assert (Hne : 56 <> 40) by lia.
  split.
  - split; [reflexivity |]. split; [exact Hne |].
    exact (proj1 (X3_rook_paths 56 40) eq_refl Hne).
  - split; [exact H47 |]. split; [exact H40 |]. split; [reflexivity |].
    split; [lia |].
    apply (proj2 (X3_rook_paths 47 40) H47 H40 eq_refl). lia.
Defined.

Lemma collect_ext (lo hi : Z) (c1 c2 : Z -> bool) :
  (forall x, c1 x = c2 x) -> collect lo hi c1 = collect lo hi c2.
Proof.
  intros H. unfold collect. apply list_filter_iff. intros x. now rewrite H.
Qed.

Lemma abs_mod_eqb (a k : Z) :
  (0 < k)%Z -> (Z.abs a mod k =? 0)%Z = (a mod k =? 0)%Z.
Proof.
  intros Hk. destruct (Z.eqb_spec (a mod k) 0) as [E | E].
  - apply Z.eqb_eq. exact (proj2 (abs_mod_zero a k Hk) E).
  - apply Z.eqb_neq. intros E'. apply E.
    exact (proj1 (abs_mod_zero a k Hk) E').
Qed.

Lemma mod_zero_sym (a b k : Z) :
  (0 < k)%Z -> (a - b) mod k = 0 <-> (b - a) mod k = 0.
Proof.
  intros Hk. rewrite !Z.mod_divide by lia.
  replace (b - a) with (- (a - b)) by lia. symmetry. apply Z.divide_opp_r.
Qed.

(** X4.  Whenever [Rook.valid_move] returns a list,
    [Queen.valid_move] returns the same list: the queen's method starts
    with the rook's code and returns where it returns. *)
Theorem X4_queen_follows_rook (cur new : Z) (l : list Z) :
  Rook.valid_move cur new = Some l -> Queen.valid_move cur new = Some l.
Proof.
  unfold Rook.valid_move, Queen.valid_move.
  destruct ((cur - new) mod 8 =? 0)%Z.
  - destruct (cur <? new)%Z.
    + intros [= <-]. f_equal. apply collect_ext. intros x.
      apply abs_mod_eqb. lia.
    + destruct (cur >? new)%Z; [| auto].
      intros [= <-]. f_equal. apply collect_ext. intros x.
      apply abs_mod_eqb. lia.
  - intros ->. reflexivity.
Qed.

(** X4 at a concrete input. *)
Lemma X4_queen_follows_rook_witness :
  Rook.valid_move 59 35 = Some [35; 43; 51; 59] /\
  Queen.valid_move 59 35 = Some [35; 43; 51; 59].
Proof.
  split; [reflexivity |]. apply (X4_queen_follows_rook 59 35). reflexivity.
Defined.

Lemma queen_diag_list (k cur new : Z) :
  (0 < k)%Z -> cur <> new ->
  exists l,
    (if (cur >? new)%Z
     then Some (collect new cur (fun location => (Z.abs (location - cur) mod k =? 0)%Z))
     else if (new >? cur)%Z
     then Some (collect cur new (fun location => (Z.abs (location - cur) mod k =? 0)%Z))
     else None) = Some l /\
    forall x, x ∈ l
      <-> Z.min cur new <= x <= Z.max cur new /\ (x - cur) mod k = 0.
Proof.
  intros Hk Hne.
  destruct (Z.gtb_spec cur new).
  - eexists; split; [reflexivity |]. intros x.
    rewrite elem_of_collect, Z.eqb_eq, abs_mod_zero by lia. lia.
  - destruct (Z.gtb_spec new cur); [| lia].
    eexists; split; [reflexivity |]. intros x.
    rewrite elem_of_collect, Z.eqb_eq, abs_mod_zero by lia. lia.
Qed.

(** X5.  Where the rook's part rejects, [Queen.valid_move]
    decides by the difference alone: it returns a list exactly when the
    difference is a multiple of 7 or of 9, and the list holds the locations
    between the two, both included, whose distance from the origin is a
    multiple of 7 (tested first) or else of 9. *)
Theorem X5_queen_diagonals (cur new : Z) :
  Rook.valid_move cur new = None ->
  (Queen.valid_move cur new <> None
   <-> (cur - new) mod 7 = 0 \/ (cur - new) mod 9 = 0) /\
  ((cur - new) mod 7 = 0 ->
   exists l, Queen.valid_move cur new = Some l /\
     forall x, x ∈ l
       <-> Z.min cur new <= x <= Z.max cur new /\ (x - cur) mod 7 = 0) /\
  ((cur - new) mod 7 <> 0 -> (cur - new) mod 9 = 0 ->
   exists l, Queen.valid_move cur new = Some l /\
     forall x, x ∈ l
       <-> Z.min cur new <= x <= Z.max cur new /\ (x - cur) mod 9 = 0).
Proof.
  unfold Rook.valid_move, Queen.valid_move.
  destruct (Z.eqb_spec ((cur - new) mod 8) 0) as [E8 | E8].
  { destruct (cur <? new)%Z; [discriminate |].
    destruct (cur >? new)%Z; discriminate. }
  intros ->. unfold Queen.diagonal_part.
  assert (Hne : cur <> new).
  { intros ->. apply E8. now rewrite Z.sub_diag. }
  rewrite !abs_mod_eqb by lia.
  destruct (Z.eqb_spec ((cur - new) mod 7) 0) as [E7 | E7].
  - destruct (queen_diag_list 7 cur new ltac:(lia) Hne) as (l & Hl & Hm).
    rewrite Hl. split; [split; [auto | discriminate] |].
    split; [intros _; eauto | intros C; contradiction].
  - destruct (Z.eqb_spec ((cur - new) mod 9) 0) as [E9 | E9].
    + destruct (queen_diag_list 9 cur new ltac:(lia) Hne) as (l & Hl & Hm).
      rewrite Hl. split; [split; [auto | discriminate] |].
      split; [intros C; contradiction | intros _ _; eauto].
    + split; [split; [congruence | intros [C | C]; contradiction] |].
      split; intros; contradiction.
Qed.

(** X5 at a concrete input. *)
Lemma X5_queen_diagonals_witness :
  Rook.valid_move 59 31 = None /\ (59 - 31) mod 7 = 0 /\
  exists l, Queen.valid_move 59 31 = Some l /\
    forall x, x ∈ l
      <-> Z.min 59 31 <= x <= Z.max 59 31 /\ (x - 59) mod 7 = 0.
Proof.
  assert (Hr : Rook.valid_move 59 31 = None) by reflexivity.
  split; [exact Hr |]. split; [reflexivity |].
  apply (X5_queen_diagonals 59 31 Hr). reflexivity.
Defined.

Lemma edge_check_all : forallb edge_check (py_range 0 64) = true.
Proof. vm_compute. reflexivity. Qed.

Lemma edge_lists_spec (cur : Z) :
  on_board cur ->
  py_in cur _edge_one = (cur mod 8 =? 0)%Z /\
  py_in cur _edge_eight = (cur mod 8 =? 7)%Z.
Proof.
  intros Hc. pose proof edge_check_all as H. rewrite forallb_forall in H.
  assert (Hin : In cur (py_range 0 64)).
  { apply list_elem_of_In, elem_of_py_range. unfold on_board in Hc. lia. }
  specialize (H cur Hin). unfold edge_check in H.
  apply andb_true_iff in H as [H1 H2].
  apply Bool.eqb_prop in H1, H2. auto.
Qed.

Ltac pawn_geometry :=
  unfold file_delta, row_delta, file_of, row_of, pawn_step, on_board in *;
  Z.div_mod_to_equations; lia.

(** X6.  What [Pawn.valid_move] accepts from a square of the board,
    and what it does to the pawn: a rejected move leaves the object as it
    is; an accepted move clears the first-move flag and is one of: one step
    forward onto an empty square, two steps forward onto an empty square
    with the flag still set (the list then holds the square passed over
    and the destination), or one step diagonally forward, one file aside,
    onto a piece of the other colour. *)
Theorem X6_pawn_moves (self self' : Piece) (cur new : Z)
    (occ : option Piece) (res : option (list Z)) :
  on_board cur ->
  Pawn.valid_move self cur new occ = (res, self') ->
  (res = None -> self' = self) /\
  (forall l, res = Some l ->
     self' = clear_first_move self /\
     ((occ = None /\ new = cur + pawn_step (_color self) /\ l = [new]) \/
      (occ = None /\ _first_move self = true /\
       new = cur + 2 * pawn_step (_color self) /\
       l = [cur + pawn_step (_color self); new]) \/
      (exists o, occ = Some o /\ get_color o <> _color self /\
         (new = cur + pawn_step (_color self) - 1 \/
          new = cur + pawn_step (_color self) + 1) /\
         file_delta cur new = 1 /\ row_delta cur new = 1 /\ l = [new]))).
Proof.
  intros Hb H. destruct (edge_lists_spec cur Hb) as [E1 E8].
  unfold Pawn.valid_move in H. rewrite E1, E8 in H.
  unfold Pawn.block, get_color in H.
  destruct (Z.eqb_spec (cur mod 8) 0) as [M0 | M0];
  destruct (Z.eqb_spec (cur mod 8) 7) as [M7 | M7];
  destruct self as [cls [|] fm]; cbn in H;
  repeat (break_inner H; cbn in H);
  injection H as <- <-;
  (split; [intros Hn; try discriminate Hn; reflexivity |]);
  intros l' Hl; try discriminate Hl; injection Hl as <-;
  (split; [reflexivity |]);
  repeat match goal with
  | Hx : _ && _ = true |- _ => apply andb_true_iff in Hx as [? ?]
  | Hx : _ || _ = true |- _ => apply orb_true_iff in Hx
  | Hx : (_ =? _)%Z = true |- _ => apply Z.eqb_eq in Hx
  | Hx : is_None ?o = true |- _ => destruct o; [discriminate Hx | clear Hx]
  end; cbn [_color _first_move pawn_step] in *.
  all: try (exfalso; congruence).
  all: first
    [ left; split; [reflexivity |]; split; [lia | reflexivity]
    | right; left; split; [reflexivity |]; split; [assumption |];
      split; [lia |]; f_equal; lia
    | right; right; eexists; split; [reflexivity |];
      split; [unfold get_color; intros Hc; rewrite Hc in *; discriminate |];
      split; [lia |]; split; [pawn_geometry |];
      split; [pawn_geometry | reflexivity] ].
Qed.

(** X6 at a concrete input. *)
Lemma X6_pawn_moves_witness :
  on_board 52 /\
  Pawn.valid_move (mkPiece PawnC white true) 52 36 None
    = (Some [44; 36], mkPiece PawnC white false) /\
  (mkPiece PawnC white false = clear_first_move (mkPiece PawnC white true) /\
   ((@None Piece = None /\ 36 = 52 + pawn_step white /\ [44; 36] = [36]) \/
    (@None Piece = None /\ true = true /\ 36 = 52 + 2 * pawn_step white /\
     [44; 36] = [52 + pawn_step white; 36]) \/
    (exists o, None = Some o /\ get_color o <> white /\
       (36 = 52 + pawn_step white - 1 \/ 36 = 52 + pawn_step white + 1) /\
       file_delta 52 36 = 1 /\ row_delta 52 36 = 1 /\ [44; 36] = [36]))).
Proof.
  assert (Hb : on_board 52) by (unfold on_board; lia).
  assert (Hv : Pawn.valid_move (mkPiece PawnC white true) 52 36 None
               = (Some [44; 36], mkPiece PawnC white false)) by reflexivity.
  split; [exact Hb |]. split; [exact Hv |].
  exact (proj2 (X6_pawn_moves _ _ 52 36 None _ Hb Hv) [44; 36] eq_refl).
Defined.

(** X7.  [Pawn.valid_move] accepts the single step forward
    onto an empty square from every location, the double step exactly
    while the first-move flag is set, and both clear the flag; without the
    flag the double step is rejected and the pawn unchanged. *)
Theorem X7_pawn_forward_steps (self : Piece) (cur : Z) :
  let step := pawn_step (_color self) in
  Pawn.valid_move self cur (cur + step) None
    = (Some [cur + step], clear_first_move self) /\
  (_first_move self = true ->
   Pawn.valid_move self cur (cur + 2 * step) None
     = (Some [cur + step; cur + 2 * step], clear_first_move self)) /\
  (_first_move self = false ->
   Pawn.valid_move self cur (cur + 2 * step) None = (None, self)).
Proof.
  destruct self as [cls c fm]. cbn [_color _first_move].
  unfold Pawn.valid_move, Pawn.block. cbn [_color _first_move].
  assert (E1 : forall k, (cur + k =? cur + k)%Z = true) by (intros; apply Z.eqb_refl).
  assert (N8 : (cur + 8 =? cur + 2 * 8)%Z = false) by (apply Z.eqb_neq; lia).
  assert (N8' : (cur - 8 =? cur + 2 * -8)%Z = false) by (apply Z.eqb_neq; lia).
  assert (E16 : (cur + 16 =? cur + 2 * 8)%Z = true) by (apply Z.eqb_eq; lia).
  assert (E16' : (cur - 16 =? cur + 2 * -8)%Z = true) by (apply Z.eqb_eq; lia).
  assert (Em : (cur - 8 =? cur + -8)%Z = true) by (apply Z.eqb_eq; lia).
  destruct (py_in cur _edge_one), (py_in cur _edge_eight), c;
    cbn [negb andb color_eqb pawn_step];
    rewrite ?E1, ?N8, ?N8', ?E16, ?E16', ?Em; cbn [andb is_None];
    (split; [first [reflexivity | do 2 f_equal; lia] |]);
    split; intros ->; cbn [andb]; first [reflexivity | do 3 f_equal; lia | do 2 f_equal; lia].
Qed.

(** X7 at a concrete input. *)
Lemma X7_pawn_forward_steps_witness :
  Pawn.valid_move (mkPiece PawnC black false) 8 (8 + 2 * 8) None
    = (None, mkPiece PawnC black false).
Proof.
  apply (X7_pawn_forward_steps (mkPiece PawnC black false) 8). reflexivity.
Defined.

Lemma collect_bounds (lo hi : Z) (c : Z -> bool) (x : Z) :
  x ∈ collect lo hi c -> lo <= x <= hi.
Proof. intros H. apply elem_of_collect in H. tauto. Qed.

Lemma row_chain_bounds (cur new : Z) (l : list Z) (x : Z) :
  row_chain cur new = Some l -> x ∈ l ->
  Z.min cur new <= x <= Z.max cur new.
Proof.
  intros H Hx.
  assert (Hl : l = row_body cur new).
  { unfold row_chain in H.
    repeat match type of H with
    | (if ?c then _ else _) = _ => destruct c
    end; congruence. }
  subst l. unfold row_body in Hx.
  destruct (Z.gtb_spec cur new); destruct (Z.ltb_spec new cur);
    rewrite ?app_nil_r in Hx; cbn [app] in Hx;
    try (apply elem_of_nil in Hx; contradiction);
    try lia.
  apply elem_of_app in Hx as [Hx | Hx]; apply elem_of_py_range in Hx; lia.
Qed.

Ltac bounds_by_collect :=
  repeat match goal with
  | H : (if ?c then _ else _) = Some _ |- _ =>
      let E := fresh "E" in
      destruct c eqn:E; try discriminate H;
      repeat match type of E with
      | (_ >? _)%Z = true => apply Z.gtb_lt in E
      | (_ <? _)%Z = true => apply Z.ltb_lt in E
      end
  | H : Some _ = Some _ |- _ => injection H as <-
  | H : _ ∈ collect _ _ _ |- _ => apply collect_bounds in H
  end; try lia.

(** The lists of every [valid_move] stay between origin and
    destination. *)
Lemma valid_move_within (self self' : Piece) (cur new : Z)
    (occ : option Piece) (l : list Z) (x : Z) :
  valid_move self cur new occ = (Some l, self') -> x ∈ l ->
  Z.min cur new <= x <= Z.max cur new.
Proof.
  unfold valid_move. destruct (piece_class self) eqn:Hc.
  - (* pawn *)
    unfold Pawn.valid_move, Pawn.block. intros H Hx.
    repeat (break_inner H; cbn in H); try discriminate H;
    injection H as Hl _; subst l;
    repeat match goal with
    | Hy : _ && _ = true |- _ => apply andb_true_iff in Hy as [? ?]
    | Hy : (_ =? _)%Z = true |- _ => apply Z.eqb_eq in Hy
    end;
    repeat (apply elem_of_cons in Hx as [-> | Hx]; [lia |]);
    apply elem_of_nil in Hx; contradiction.
  - (* rook *)
    intros [= H _] Hx. unfold Rook.valid_move in H.
    destruct ((cur - new) mod 8 =? 0)%Z;
      [bounds_by_collect; apply elem_of_nil in Hx; contradiction
      | eapply row_chain_bounds; eassumption].
  - (* bishop *)
    intros [= H _] Hx. unfold Bishop.valid_move, Bishop.first_iteration in H.
    destruct ((cur - new) mod 7 =? 0)%Z.
    + destruct (Z.gtb_spec cur new).
      * rewrite (py_range_cons new (cur + 1)) in H by lia.
        injection H as <-. destruct (_ =? _)%Z;
          [apply list_elem_of_singleton in Hx; lia
          | apply elem_of_nil in Hx; contradiction].
      * destruct (Z.gtb_spec new cur); [| discriminate].
        rewrite (py_range_cons cur (new + 1)) in H by lia.
        injection H as <-. destruct (_ =? _)%Z;
          [apply list_elem_of_singleton in Hx; lia
          | apply elem_of_nil in Hx; contradiction].
    + bounds_by_collect.
  - (* knight *)
    intros [= H _] Hx. unfold Knight.valid_move in H.
    destruct (_ || _); [| discriminate]. injection H as <-.
    apply list_elem_of_singleton in Hx. lia.
  - (* queen *)
    intros [= H _] Hx. unfold Queen.valid_move in H.
    destruct ((cur - new) mod 8 =? 0)%Z;
      [bounds_by_collect; apply elem_of_nil in Hx; contradiction |].
    destruct (row_chain cur new) eqn:Hr.
    + injection H as <-. eapply row_chain_bounds; eassumption.
    + unfold Queen.diagonal_part in H. bounds_by_collect.
  - (* king *)
    intros [= H _] Hx. unfold King.valid_move in H.
    destruct (_ || _).
    + injection H as <-. apply list_elem_of_singleton in Hx. lia.
    + destruct (_ || _); [| discriminate]. injection H as <-.
      apply list_elem_of_singleton in Hx. lia.
  - (* hunter *)
    intros [= H _] Hx. unfold Hunter.valid_move in H.
    destruct (_color self); bounds_by_collect.
  - (* falcon *)
    intros [= H _] Hx. unfold Falcon.valid_move in H.
    destruct (_color self); bounds_by_collect.
Qed.

(** X8.  For two squares of the board, every location in a
    list returned by the [valid_move] of any piece lies between origin and
    destination, hence on the board. *)
Theorem X8_valid_move_on_board (self self' : Piece) (cur new : Z)
    (occ : option Piece) (l : list Z) (x : Z) :
  on_board cur -> on_board new ->
  valid_move self cur new occ = (Some l, self') -> x ∈ l ->
  on_board x /\ Z.min cur new <= x <= Z.max cur new.
Proof.
  intros Hc Hn Hv Hx.
  pose proof (valid_move_within _ _ _ _ _ _ _ Hv Hx) as Hb.
  split; [unfold on_board in *; lia | exact Hb].
Qed.

(** X8 at a concrete input. *)
Lemma X8_valid_move_on_board_witness :
  on_board 59 /\ on_board 31 /\
  valid_move (mkPiece QueenC white true) 59 31 None
    = (Some [31; 38; 45; 52; 59], mkPiece QueenC white true) /\
  45 ∈ [31; 38; 45; 52; 59] /\
  on_board 45 /\ Z.min 59 31 <= 45 <= Z.max 59 31.
Proof.
  assert (H59 : on_board 59) by (unfold on_board; lia).
  assert (H31 : on_board 31) by (unfold on_board; lia).
  assert (Hv : valid_move (mkPiece QueenC white true) 59 31 None
               = (Some [31; 38; 45; 52; 59], mkPiece QueenC white true))
    by reflexivity.
  assert (Hx : 45 ∈ [31; 38; 45; 52; 59])
    by (apply list_elem_of_In; cbn; tauto).
  split; [exact H59 |]. split; [exact H31 |].
  split; [exact Hv |]. split; [exact Hx |].
  exact (X8_valid_move_on_board _ _ 59 31 None _ 45 H59 H31 Hv Hx).
Defined.

Lemma collect_empty (lo hi : Z) (c : Z -> bool) :
  hi < lo -> collect lo hi c = [].
Proof.
  intros H. unfold collect, py_range. rewrite seqZ_nil by lia. reflexivity.
Qed.

(** X9.  [Falcon.valid_move] of a black falcon returns
    [None] or the empty list, whatever the two locations: each of its
    loops runs over a range taken in the wrong direction or tests a
    condition no location of the range meets. *)
Theorem X9_black_falcon_no_path (self : Piece) (cur new : Z) :
  _color self = black ->
  Falcon.valid_move self cur new = None \/
  Falcon.valid_move self cur new = Some [].
Proof.
  intros Hc. unfold Falcon.valid_move. rewrite Hc.
  destruct (Z.ltb_spec new cur).
  - destruct (_ =? _)%Z; [right | now left].
    rewrite collect_empty by lia. reflexivity.
  - destruct (Z.gtb_spec new cur); [| now left].
    destruct (_ =? _)%Z; [right; rewrite collect_empty by lia; reflexivity |].
    destruct (_ =? _)%Z; [right; rewrite collect_empty by lia; reflexivity |].
    now left.
Qed.

(** X9 at a concrete input. *)
Lemma X9_black_falcon_no_path_witness :
  Falcon.valid_move (mkPiece FalconC black true) 40 8 = None \/
  Falcon.valid_move (mkPiece FalconC black true) 40 8 = Some [].
Proof.
  apply (X9_black_falcon_no_path (mkPiece FalconC black true) 40 8). reflexivity.
Defined.

Lemma hunter_accepts_iff (self : Piece) (cur new : Z) :
  Hunter.valid_move self cur new <> None
  <-> (rookwards (_color self) cur new /\ (cur - new) mod 8 = 0) \/
      (rookwards (_color self) new cur /\
       ((cur - new) mod 7 = 0 \/ (cur - new) mod 9 = 0)).
Proof.
  unfold Hunter.valid_move, rookwards.
  destruct (_color self);
  destruct (Z.ltb_spec new cur); destruct (Z.gtb_spec new cur);
  destruct (Z.eqb_spec ((cur - new) mod 8) 0);
  destruct (Z.eqb_spec ((cur - new) mod 7) 0);
  destruct (Z.eqb_spec ((cur - new) mod 9) 0);
  split; intros Hacc; try discriminate; try congruence; try lia;
  try (left; split; [lia | assumption]);
  try (right; split; [lia | tauto]);
  try (exfalso; destruct Hacc as [[? ?] | [? [? | ?]]];
       first [lia | contradiction]).
Qed.

Lemma falcon_accepts_iff (self : Piece) (cur new : Z) :
  Falcon.valid_move self cur new <> None
  <-> (rookwards (_color self) new cur /\ (cur - new) mod 8 = 0) \/
      (rookwards (_color self) cur new /\
       ((cur - new) mod 7 = 0 \/ (cur - new) mod 9 = 0)).
Proof.
  unfold Falcon.valid_move, rookwards.
  destruct (_color self);
  destruct (Z.ltb_spec new cur); destruct (Z.gtb_spec new cur);
  destruct (Z.eqb_spec ((cur - new) mod 8) 0);
  destruct (Z.eqb_spec ((cur - new) mod 7) 0);
  destruct (Z.eqb_spec ((cur - new) mod 9) 0);
  split; intros Hacc; try discriminate; try congruence; try lia;
  try (left; split; [lia | assumption]);
  try (right; split; [lia | tauto]);
  try (exfalso; destruct Hacc as [[? ?] | [? [? | ?]]];
       first [lia | contradiction]).
Qed.

(** X10.  [Hunter.valid_move] accepts exactly: differences that
    are a multiple of 8 in the hunter's forward direction, and differences
    that are a multiple of 7 or of 9 in the backward direction.  In the
    backward direction the list can hold no location besides
    [cur mod 7] and [cur mod 9], because the loop tests
    [location - current_location % k == 0]. *)
Theorem X10_hunter_directions (self : Piece) (cur new : Z) :
  (Hunter.valid_move self cur new <> None
   <-> (rookwards (_color self) cur new /\ (cur - new) mod 8 = 0) \/
       (rookwards (_color self) new cur /\
        ((cur - new) mod 7 = 0 \/ (cur - new) mod 9 = 0))) /\
  (forall l x, rookwards (_color self) new cur ->
     Hunter.valid_move self cur new = Some l -> x ∈ l ->
     x = cur mod 7 \/ x = cur mod 9).
Proof.
  split; [apply hunter_accepts_iff |].
  unfold Hunter.valid_move, rookwards. intros l x Hd H Hx.
  destruct (_color self); cbn in Hd;
  destruct (Z.ltb_spec new cur); destruct (Z.gtb_spec new cur); try lia;
  repeat match type of H with
  | (if ?c then _ else _) = Some _ => destruct c; try discriminate H
  end;
  injection H as <-; apply elem_of_collect in Hx as [_ Hx];
  apply Z.eqb_eq in Hx; lia.
Qed.

(** X10 at a concrete input. *)
Lemma X10_hunter_directions_witness :
  rookwards white 10 3 /\
  Hunter.valid_move (mkPiece HunterC white true) 3 10 = Some [3] /\
  (forall x, x ∈ [3] -> x = 3 mod 7 \/ x = 3 mod 9).
Proof.
  assert (Hd : rookwards white 10 3) by (cbn; lia).
  assert (Hv : Hunter.valid_move (mkPiece HunterC white true) 3 10 = Some [3])
    by reflexivity.
  split; [exact Hd |]. split; [exact Hv |]. intros x.
  exact (proj2 (X10_hunter_directions (mkPiece HunterC white true) 3 10)
           [3] x Hd Hv).
Defined.

(** X11.  [Falcon.valid_move] rejects a pair of locations
    exactly when [Hunter.valid_move] of the other colour rejects it. *)
Theorem X11_falcon_mirrors_hunter (f h : Piece) (cur new : Z) :
  _color f <> _color h ->
  (Falcon.valid_move f cur new = None
   <-> Hunter.valid_move h cur new = None).
Proof.
  intros Hne.
  pose proof (falcon_accepts_iff f cur new) as Hf.
  pose proof (hunter_accepts_iff h cur new) as Hh.
  assert (Hm : forall a b, rookwards (_color f) a b <-> rookwards (_color h) b a).
  { intros a b. unfold rookwards.
    destruct (_color f), (_color h); try congruence; tauto. }
  rewrite (Hm new cur), (Hm cur new) in Hf.
  destruct (Falcon.valid_move f cur new), (Hunter.valid_move h cur new);
    split; intros E; try discriminate E; try reflexivity; exfalso.
  - assert (X : Some l <> None) by discriminate. apply Hf, Hh in X. congruence.
  - assert (X : Some l <> None) by discriminate. apply Hh, Hf in X. congruence.
Qed.

(** X11 at a concrete input. *)
Lemma X11_falcon_mirrors_hunter_witness :
  Falcon.valid_move (mkPiece FalconC black true) 8 24 = None
  <-> Hunter.valid_move (mkPiece HunterC white true) 8 24 = None.
Proof.
  apply (X11_falcon_mirrors_hunter (mkPiece FalconC black true)
           (mkPiece HunterC white true) 8 24).
  discriminate.
Defined.

(** ** Turn counter, captures and the outcome *)

Lemma accepted_true o : accepted o = true <-> o = Return true.
Proof. destruct o as [[|] | e]; cbn; split; congruence. Qed.

(** What a call that is not accepted leaves alone. *)
Lemma run_not_accepted g c :
  accepted (fst (run c g)) = false -> same_but_objects g (snd (run c g)).
Proof.
  destruct (run c g) as [res g'] eqn:E. cbn. intros Ha.
  destruct c; unfold run in E.
  - apply make_move_inv in E as [(_ & Hs & _) | (-> & _)];
      [exact Hs | discriminate Ha].
  - apply entry_fairy_piece_inv in E as [(_ & ->) | (-> & _)];
      [unfold same_but_objects; tauto | discriminate Ha].
Qed.

Lemma run_accepted_turn g c :
  fst (run c g) = Return true -> _turn (snd (run c g)) = _turn g + 1.
Proof.
  destruct (run c g) as [res g'] eqn:E. cbn. intros ->.
  destruct c; unfold run in E.
  - apply make_move_accepted in E.
    destruct E as (r & self & cl & nl & oref & occ & l & self' & E).
    tauto.
  - apply entry_accepted in E. destruct E as (n & kind & v & l' & E). tauto.
Qed.

(** X12.  A call of [make_move] or [entry_fairy_piece] advances the
    turn counter by one when it answers [True] and leaves it as it is
    otherwise, exceptions included. *)
Theorem X12_turn_counter (g : ChessVar) (c : call) :
  _turn (snd (run c g))
  = _turn g + (if accepted (fst (run c g)) then 1 else 0).
Proof.
  destruct (accepted (fst (run c g))) eqn:Ha.
  - apply accepted_true in Ha. now apply run_accepted_turn.
  - apply run_not_accepted in Ha as (Ht & _). lia.
Qed.

(** X13.  An accepted [make_move]: the match is undecided, source
    and destination are two distinct squares of the board, the source
    holds a piece of the colour to move and the destination no piece of
    that colour; afterwards the destination holds the moved piece, the
    source is empty and every other slot of the board dictionary is as
    before. *)
Theorem X13_accepted_move (g : ChessVar) (a b : string) :
  fst (make_move a b g) = Return true ->
  exists r self,
    _game_state g = UNFINISHED /\
    In a square_keys /\ In b square_keys /\ a <> b /\
    _new_board g !! a = Some (Some r) /\
    objects g !! r = Some self /\
    get_color self = player_of_turn (_turn g) /\
    (forall r0 opp, _new_board g !! b = Some (Some r0) ->
       objects g !! r0 = Some opp -> get_color opp <> get_color self) /\
    _new_board (snd (make_move a b g)) !! b = Some (Some r) /\
    _new_board (snd (make_move a b g)) !! a = Some None /\
    (forall k, k <> a -> k <> b ->
       _new_board (snd (make_move a b g)) !! k = _new_board g !! k).
Proof.
  destruct (make_move a b g) as [res g'] eqn:E. cbn. intros ->.
  pose proof E as E'.
  apply make_move_inv in E' as [(Hn & _) | (_ & r' & _ & Hne & Sa & Sb & _)];
    [congruence |].
  apply make_move_accepted in E.
  destruct E as (r & self & cl & nl & oref & occ & l & self' & Hg & Ha & Ho &
                 Hc & Hda & Hdb & Hb & Hocc & _ & _ & Hff & _ & Hbd & _).
  exists r, self. rewrite Hbd.
  split; [assumption |]. split; [apply is_square_In, Sa |].
  split; [apply is_square_In, Sb |]. split; [assumption |].
  split; [assumption |]. split; [assumption |]. split; [assumption |].
  split; [| split; [| split]].
  - intros r0 opp Hb0 Hopp. rewrite Hb0 in Hb. injection Hb as <-.
    destruct Hocc as [Hocc _]. rewrite Hopp in Hocc. rewrite Hc.
    apply Hff. now symmetry.
  - rewrite lookup_insert_ne by assumption. apply lookup_insert_eq.
  - apply lookup_insert_eq.
  - intros k Hka Hkb. rewrite !lookup_insert_ne by congruence. reflexivity.
Qed.


Lemma outcome_inv_step g c : outcome_inv g -> outcome_inv (snd (run c g)).
Proof.
  intros [Hs Hk].
  destruct (accepted (fst (run c g))) eqn:Ha.
  - apply accepted_true in Ha.
    destruct (run c g) as [res g'] eqn:E. cbn in Ha |- *. subst res.
    destruct c; unfold run in E.
    + apply make_move_accepted in E.
      destruct E as (r & self & cl & nl & oref & occ & l & self' & Hg & _ & _ &
                     _ & _ & _ & _ & _ & _ & _ & _ & _ & _ & _ & _ & Hp & Hgs).
      rewrite Hg in Hs. unfold outcome_inv. split; [exact Hgs |].
      unfold outcome_of in Hs.
      destruct (str_in "king" (_captured_pieces (_player_2 g))) eqn:K2;
        [discriminate Hs |].
      destruct (str_in "king" (_captured_pieces (_player_1 g))) eqn:K1;
        [discriminate Hs |].
      destruct occ as [opp |]; [destruct (player_of_turn (_turn g)) |];
        destruct Hp as [-> ->];
        unfold credited, remove_active_piece, add_captured_piece;
        cbn [_captured_pieces];
        rewrite ?K1, ?K2, ?andb_false_r; reflexivity.
    + apply entry_accepted in E.
      destruct E as (n & kind & v & l' & _ & _ & _ & _ & _ & _ & _ & Hp1 & Hp2 &
                     _ & _ & _ & Hgs).
      unfold outcome_inv. rewrite Hgs, Hp1, Hp2, Hs. cbn [_captured_pieces].
      split; [| exact Hk]. unfold outcome_of. cbn [_captured_pieces].
      destruct (str_in "king" (_captured_pieces (_player_2 g)));
        [reflexivity |].
      destruct (str_in "king" (_captured_pieces (_player_1 g))); reflexivity.
  - apply run_not_accepted in Ha as (_ & Hgs & Hp1 & Hp2 & _).
    unfold outcome_inv. rewrite Hgs, Hp1, Hp2. split; assumption.
Qed.

(** The outcome invariant holds in every reachable state. *)
Lemma reachable_outcome_inv g : reachable g -> outcome_inv g.
Proof.
  induction 1 as [| g c _ IH]; [| now apply outcome_inv_step].
  split; vm_compute; reflexivity.
Qed.

(** X15.  In every reachable state the game state is
    [WHITE_WON] exactly when 'king' is in [_player_2]'s captured list,
    [BLACK_WON] exactly when it is in [_player_1]'s, and [UNFINISHED]
    exactly when it is in neither. *)
Theorem X15_outcome_reflects_kings (g : ChessVar) :
  reachable g ->
  (_game_state g = WHITE_WON <-> In "king" (_captured_pieces (_player_2 g))) /\
  (_game_state g = BLACK_WON <-> In "king" (_captured_pieces (_player_1 g))) /\
  (_game_state g = UNFINISHED
   <-> ~ In "king" (_captured_pieces (_player_1 g)) /\
       ~ In "king" (_captured_pieces (_player_2 g))).
Proof.
  intros Hr. destruct (reachable_outcome_inv g Hr) as [Hs Hk].
  rewrite <- !str_in_spec. rewrite Hs. unfold outcome_of.
  destruct (str_in "king" (_captured_pieces (_player_2 g)));
  destruct (str_in "king" (_captured_pieces (_player_1 g)));
    try discriminate Hk; repeat split; intros; try congruence; try tauto;
    intuition congruence.
Qed.

Lemma outcome_of_idem p1 p2 :
  outcome_of p1 p2 (outcome_of p1 p2 UNFINISHED) = outcome_of p1 p2 UNFINISHED.
Proof.
  unfold outcome_of.
  destruct (str_in "king" (_captured_pieces p2)); [reflexivity |].
  destruct (str_in "king" (_captured_pieces p1)); reflexivity.
Qed.

Lemma decided_step g c :
  outcome_inv g -> _game_state g <> UNFINISHED ->
  _game_state (snd (run c g)) = _game_state g /\
  _captured_pieces (_player_1 (snd (run c g))) = _captured_pieces (_player_1 g) /\
  _captured_pieces (_player_2 (snd (run c g))) = _captured_pieces (_player_2 g) /\
  _active_pieces (_player_1 (snd (run c g))) = _active_pieces (_player_1 g) /\
  _active_pieces (_player_2 (snd (run c g))) = _active_pieces (_player_2 g).
Proof.
  intros [Hs Hk] Hd.
  destruct (accepted (fst (run c g))) eqn:Ha.
  - apply accepted_true in Ha.
    destruct (run c g) as [res g'] eqn:E. cbn in Ha |- *. subst res.
    destruct c; unfold run in E.
    + rewrite (make_move_decided g _ _ Hd) in E. discriminate E.
    + apply entry_accepted in E.
      destruct E as (n & kind & v & l' & _ & _ & _ & _ & _ & _ & _ & Hp1 & Hp2 &
                     _ & _ & _ & Hgs).
      rewrite Hgs, Hp1, Hp2. cbn [_captured_pieces _active_pieces].
      repeat split. rewrite Hs. apply outcome_of_idem.
  - apply run_not_accepted in Ha as (_ & Hgs & Hp1 & Hp2 & _).
    rewrite Hgs, Hp1, Hp2. repeat split.
Qed.

(** X16.  Once a match is decided no sequence of calls changes
    the game state, the captured lists or the active lists. *)
Theorem X16_outcome_terminal (g : ChessVar) (cs : list call) :
  reachable g -> _game_state g <> UNFINISHED ->
  _game_state (play cs g) = _game_state g /\
  _captured_pieces (_player_1 (play cs g)) = _captured_pieces (_player_1 g) /\
  _captured_pieces (_player_2 (play cs g)) = _captured_pieces (_player_2 g) /\
  _active_pieces (_player_1 (play cs g)) = _active_pieces (_player_1 g) /\
  _active_pieces (_player_2 (play cs g)) = _active_pieces (_player_2 g).
Proof.
  revert g. induction cs as [| c cs IH]; intros g Hr Hd; [cbn; tauto |].
  cbn [play fold_left].
  destruct (decided_step g c (reachable_outcome_inv g Hr) Hd)
    as (E1 & E2 & E3 & E4 & E5).
  change (fold_left (fun g c => snd (run c g)) cs (snd (run c g)))
    with (play cs (snd (run c g))).
  destruct (IH (snd (run c g)) (reachable_step g c Hr) ltac:(congruence))
    as (F1 & F2 & F3 & F4 & F5).
  repeat split; congruence.
Qed.

(** ** Fairy stables and piece objects *)

Lemma list_remove_subset x l l' y :
  list_remove x l = Some l' -> In y l' -> In y l.
Proof.
  revert l'. induction l as [| z l IH]; cbn; [discriminate |].
  intros l'. destruct (String.eqb z x).
  - intros [= <-]. auto.
  - destruct (list_remove x l) as [r |]; [| discriminate].
    intros [= <-] [-> | Hy]; [now left | right; eauto].
Qed.

(** No call adds a name to a stable list. *)
Lemma stable_never_grows g c k :
  In k (_fairy_pieces_stable (_player_1 (snd (run c g)))) ->
  In k (_fairy_pieces_stable (_player_1 g)).
Proof.
  destruct (accepted (fst (run c g))) eqn:Ha.
  - apply accepted_true in Ha.
    destruct (run c g) as [res g'] eqn:E. cbn in Ha |- *. subst res.
    destruct c; unfold run in E.
    + apply make_move_inv in E as [(Hn & _) | (_ & r & _ & _ & _ & _ & _ & _ & Hs)];
        [congruence | now rewrite Hs].
    + apply entry_accepted in E.
      destruct E as (n & kind & v & l' & _ & _ & _ & _ & _ & Hrm & _ & Hp1 & _).
      rewrite Hp1. cbn [_fairy_pieces_stable]. eapply list_remove_subset, Hrm.
  - apply run_not_accepted in Ha as (_ & _ & Hp1 & _). now rewrite Hp1.
Qed.

Lemma stable_never_grows_play cs g k :
  In k (_fairy_pieces_stable (_player_1 (play cs g))) ->
  In k (_fairy_pieces_stable (_player_1 g)).
Proof.
  revert g. induction cs as [| c cs IH]; intros g; [auto |].
  cbn [play fold_left]. intros H. apply IH in H. eapply stable_never_grows, H.
Qed.

Lemma entry_needs_kind g t s kind :
  In (t, kind) fairy_codes ->
  fst (entry_fairy_piece t s g) = Return true ->
  In kind (_fairy_pieces_stable (_player_1 g)).
Proof.
  intros Hin. destruct (entry_fairy_piece t s g) as [res g'] eqn:E. cbn.
  intros ->. apply entry_accepted in E.
  destruct E as (n & kind' & v & l' & _ & _ & Hside & _ & Hk & _).
  assert (kind' = kind); [| congruence].
  cbn in Hin.
  destruct Hside as [(_ & _ & Hc) | (_ & _ & Hc)]; cbn in Hc;
    destruct Hc as [[= <- <-] | [[= <- <-] | []]];
    destruct Hin as [[= <-] | [[= <-] | [[= <-] | [[= <-] | []]]]];
    try reflexivity; try discriminate.
Qed.

Lemma list_remove_gone x l l' :
  List.NoDup l -> list_remove x l = Some l' -> ~ In x l'.
Proof.
  revert l'. induction l as [| y l IH]; cbn; [discriminate |].
  intros l' Hnd. apply List.NoDup_cons_iff in Hnd as [Hy Hnd].
  destruct (String.eqb_spec y x) as [-> | Hne].
  - intros [= <-]. exact Hy.
  - destruct (list_remove x l) as [r |] eqn:Hr; [| discriminate].
    intros [= <-] [E | Hin]; [congruence |].
    exact (IH r Hnd eq_refl Hin).
Qed.

Lemma stable_lists_NoDup st : In st stable_lists -> List.NoDup st.
Proof.
  cbn. intros [<- | [<- | [<- | [<- | []]]]];
    repeat (apply List.NoDup_cons; [cbn; intuition discriminate |]);
    apply List.NoDup_nil.
Qed.

Lemma stable_lists_remove st k l' :
  In st stable_lists -> list_remove k st = Some l' -> ~ In k l'.
Proof. intros Hst. apply list_remove_gone, stable_lists_NoDup, Hst. Qed.

Lemma entry_removes_kind g t s kind :
  board_inv g -> In (t, kind) fairy_codes ->
  fst (entry_fairy_piece t s g) = Return true ->
  ~ In kind (_fairy_pieces_stable (_player_1 (snd (entry_fairy_piece t s g)))).
Proof.
  intros Hi Hin. pose proof (entry_needs_kind g t s kind Hin) as Hneed.
  destruct (entry_fairy_piece t s g) as [res g'] eqn:E. cbn [fst snd] in *.
  intros ->. specialize (Hneed eq_refl). apply entry_accepted in E.
  destruct E as (n & kind' & v & l' & _ & _ & Hside & _ & Hk & Hrm & _ & Hp1 & _).
  assert (kind' = kind).
  { cbn in Hin.
    destruct Hside as [(_ & _ & Hc) | (_ & _ & Hc)]; cbn in Hc;
    destruct Hc as [[= <- <-] | [[= <- <-] | []]];
    destruct Hin as [[= <-] | [[= <-] | [[= <-] | [[= <-] | []]]]];
    try reflexivity; try discriminate. }
  subst kind'. rewrite Hp1. cbn [_fairy_pieces_stable].
  exact (stable_lists_remove _ _ _ (inv_stable_list _ _ Hi) Hrm).
Qed.

(** X17.  After an accepted entry of a kind (falcon or
    hunter), no later entry of that kind is accepted, for either colour
    and whatever is played in between: both colours draw on
    [_player_1]'s stable list, which never grows. *)
Theorem X17_fairy_kind_enters_once (g : ChessVar) (t s t' s' kind : string)
    (cs : list call) :
  reachable g ->
  In (t, kind) fairy_codes -> In (t', kind) fairy_codes ->
  fst (entry_fairy_piece t s g) = Return true ->
  fst (entry_fairy_piece t' s' (play cs (snd (entry_fairy_piece t s g))))
    <> Return true.
Proof.
  intros Hr Hin Hin' Hacc Hacc'.
  apply (entry_needs_kind _ _ _ kind Hin') in Hacc'.
  apply stable_never_grows_play in Hacc'.
  exact (entry_removes_kind g t s kind (reachable_board_inv g Hr) Hin Hacc Hacc').
Qed.

(** A call changes at most one object of the store, and that one
    by its first-move flag. *)
Lemma run_objects g c :
  objects (snd (run c g)) = objects g \/
  exists r self, objects g !! r = Some self /\ piece_class self = PawnC /\
    objects (snd (run c g)) = <[r := clear_first_move self]> (objects g).
Proof.
  destruct (run c g) as [res g'] eqn:E. cbn [snd].
  destruct c; unfold run in E.
  - destruct res as [[|] | e].
    + apply make_move_accepted in E.
      destruct E as (r & self & cl & nl & oref & occ & l & self' & _ & _ & Ho &
                     _ & _ & _ & _ & _ & Hv & _ & _ & _ & _ & Hobj & _).
      rewrite Hobj.
      destruct (valid_move_self _ _ _ _ _ _ Hv) as [-> | [Hc ->]];
        [left; now apply list_insert_id | right; eauto].
    + apply make_move_inv in E as [(_ & _ & [Ho | Ho]) | (E & _)];
        [now left | | discriminate E].
      destruct Ho as (r & self & _ & Hr & Hc & Ho). right; eauto.
    + apply make_move_inv in E as [(_ & _ & [Ho | Ho]) | (E & _)];
        [now left | | discriminate E].
      destruct Ho as (r & self & _ & Hr & Hc & Ho). right; eauto.
  - apply entry_fairy_piece_inv in E as [(_ & ->) | (_ & k & v & l' & E)];
      [now left |].
    left. tauto.
Qed.

Lemma run_pieces_persist g c :
  length (objects (snd (run c g))) = length (objects g) /\
  forall r p, objects g !! r = Some p ->
    exists p', objects (snd (run c g)) !! r = Some p' /\ same_piece p p'.
Proof.
  destruct (run_objects g c) as [-> | (r0 & self & Hr0 & Hc & ->)].
  - split; [reflexivity |]. intros r p Hp. exists p.
    unfold same_piece. tauto.
  - split; [apply length_insert |]. intros r p Hp.
    destruct (decide (r0 = r)) as [-> | Hne].
    + rewrite list_lookup_insert_eq by (eapply lookup_lt_Some, Hp).
      eexists; split; [reflexivity |].
      assert (self = p) by congruence. subst self.
      unfold same_piece. cbn. repeat split; discriminate.
    + rewrite list_lookup_insert_ne by assumption. exists p.
      unfold same_piece. tauto.
Qed.


Lemma slot_check_new_game :
  forallb slot_check (map_to_list (_new_board new_game)) = true.
Proof. vm_compute. reflexivity. Qed.

Lemma slot_check_spec (bd : board_dict) :
  forallb slot_check (map_to_list bd) = true ->
  (forall k r, bd !! k = Some (Some r) -> (r < 36)%nat) /\
  (forall k, is_Some (bd !! k) -> In k all_keys).
Proof.
  rewrite forallb_forall. intros H.
  assert (Hk : forall k v, bd !! k = Some v -> slot_check (k, v) = true).
  { intros k v Hkv. apply H, list_elem_of_In, elem_of_map_to_list, Hkv. }
  split.
  - intros k r Hkr. specialize (Hk k _ Hkr). unfold slot_check in Hk.
    apply andb_true_iff in Hk as [_ Hk]. now apply Nat.ltb_lt in Hk.
  - intros k [v Hv]. specialize (Hk k _ Hv). unfold slot_check in Hk.
    apply andb_true_iff in Hk as [Hk _]. now apply str_in_spec in Hk.
Qed.

Lemma store_inv_new_game : store_inv new_game.
Proof.
  split; [vm_compute; reflexivity |].
  apply slot_check_spec, slot_check_new_game.
Qed.

Lemma square_in_all_keys k : is_square k -> In k all_keys.
Proof.
  intros H. unfold all_keys. apply in_or_app. right. now apply is_square_In.
Qed.

Lemma store_inv_step g c : store_inv g -> store_inv (snd (run c g)).
Proof.
  intros (Hl & Hr & Hk).
  destruct (run_pieces_persist g c) as [Hlen _].
  split; [congruence |].
  destruct (run c g) as [res g'] eqn:E. cbn [snd] in *.
  destruct c; unfold run in E.
  - apply make_move_inv in E as
      [(_ & (_ & _ & _ & _ & _ & Hb) & _)
      |(_ & r & Ha & _ & Sa & Sb & _ & Hb & _)]; rewrite Hb; [auto |].
    split.
    + intros k r0 Hl0. rewrite lookup_insert in Hl0.
      case_decide; [discriminate |]. rewrite lookup_insert in Hl0.
      case_decide; [injection Hl0 as <-; eauto | eauto].
    + intros k Hs. rewrite lookup_insert in Hs.
      case_decide; [subst; now apply square_in_all_keys |].
      rewrite lookup_insert in Hs.
      case_decide; [subst; now apply square_in_all_keys | auto].
  - apply entry_fairy_piece_inv in E as
      [(_ & ->) | (_ & kind & v & l' & _ & Ht & _ & Sq & _ & _ & Hb & _)];
      [auto |].
    rewrite Hb. split.
    + intros k r0 Hl0. rewrite lookup_insert in Hl0.
      case_decide; [injection Hl0 as ->; eauto | eauto].
    + intros k Hs. rewrite lookup_insert in Hs.
      case_decide; [subst; now apply square_in_all_keys | auto].
Qed.

(** The store invariant holds in every reachable state. *)
Lemma reachable_store_inv g : reachable g -> store_inv g.
Proof.
  induction 1 as [| g c _ IH];
    [apply store_inv_new_game | now apply store_inv_step].
Qed.


(** ** Answers and exceptions *)

Lemma dict_get_value k d v : dict_get k d = Some v -> In v (map snd d).
Proof.
  induction d as [| [k' v'] d IH]; cbn; [discriminate |].
  destruct (String.eqb k k'); [intros [= ->]; now left | auto].
Qed.

Lemma dict_get_on_board k n :
  dict_get k _name_to_location_dict = Some n -> on_board n.
Proof.
  intros H. apply dict_get_value in H.
  replace (map snd _name_to_location_dict) with (py_range 0 64) in H
    by (vm_compute; reflexivity).
  apply list_elem_of_In, elem_of_py_range in H. unfold on_board. lia.
Qed.

Lemma location_name_key i :
  on_board i ->
  exists s, get_location_as_space_name i = Some s /\ In s all_keys.
Proof.
  intros Hi. pose proof index_round_trip_all as H.
  rewrite forallb_forall in H.
  assert (Hin : In i (py_range 0 64)).
  { apply list_elem_of_In, elem_of_py_range. unfold on_board in Hi. lia. }
  specialize (H i Hin). unfold index_round_trip_check in H.
  destruct (get_location_as_space_name i) as [s |]; [| discriminate].
  apply andb_true_iff in H as [H _]. apply andb_true_iff in H as [_ H].
  apply str_in_spec in H. eauto.
Qed.

(** The obstruction loop raises nothing when every location of
    the list has a name that is a key of the board. *)
Lemma path_blocked_total bd nl cl l :
  (forall k, In k all_keys -> is_Some (bd !! k)) ->
  (forall x, x ∈ l -> on_board x) ->
  exists v, path_blocked bd nl cl l = Return v.
Proof.
  intros Hk. induction l as [| move rest IH]; intros Hl; cbn [path_blocked];
    [eauto |].
  assert (IH' : exists v, path_blocked bd nl cl rest = Return v).
  { apply IH. intros x Hx. apply Hl. now right. }
  destruct (negb (move =? nl)%Z && negb (move =? cl)%Z); [| exact IH'].
  destruct (location_name_key move) as (s & -> & Hs); [apply Hl; now left |].
  destruct (Hk s Hs) as [[r |] ->]; [eauto | exact IH'].
Qed.

Opaque get_space_name_as_location path_blocked valid_move player_of_turn str_in dict_get _name_to_location_dict.

(** X20.  In every reachable state [make_move] returns a
    boolean, without an exception, whenever both names are squares of the
    board. *)
Theorem X20_make_move_never_raises (g : ChessVar) (a b : string) :
  reachable g -> In a square_keys -> In b square_keys ->
  exists ans, fst (make_move a b g) = Return ans.
Proof.
  intros Hr Ia Ib.
  pose proof (inv_keys _ _ (reachable_board_inv g Hr)) as Hkeys.
  destruct (reachable_store_inv g Hr) as (Hlen & Hlt & _).
  assert (Hrefs : forall k r, _new_board g !! k = Some (Some r) ->
                    is_Some (objects g !! r)).
  { intros k r Hk. apply lookup_lt_is_Some. rewrite Hlen. eauto. }
  destruct (In_is_square a Ia) as [cl Hcl].
  destruct (In_is_square b Ib) as [nl Hnl].
  assert (Ka : is_Some (_new_board g !! a)).
  { apply Hkeys, square_in_all_keys, In_is_square, Ia. }
  assert (Kb : is_Some (_new_board g !! b)).
  { apply Hkeys, square_in_all_keys, In_is_square, Ib. }
  pose proof (get_space_name_as_location_key _ _ _ Ka Hcl) as Ga.
  pose proof (get_space_name_as_location_key _ _ _ Kb Hnl) as Gb.
  pose proof (dict_get_on_board _ _ Hcl) as Bcl.
  pose proof (dict_get_on_board _ _ Hnl) as Bnl.
  destruct Ka as [va Ka]. destruct Kb as [vb Kb].
  destruct (make_move a b g) as [[ans | e] g'] eqn:E; [eauto |]. exfalso.
  unfold make_move, bind, gets, board_getitem, deref, deref_opt, lift, raise,
    return_, ret, store, modify, bind, gets, raise, ret, capture,
    set_space_occupant, increment_turn, bind, gets, raise, ret, modify,
    return_, ret in E.
  cbn in E.
  repeat (break_inner E; cbn in E); try discriminate E.
  all: first
    [ congruence
    | match goal with
      | Hb : _new_board _ !! ?k = Some (Some ?r),
        Hn : objects _ !! ?r = None |- _ =>
          destruct (Hrefs k r Hb) as [? ?]; congruence
      end
    | match goal with
      | Hv : valid_move _ ?c ?n _ = (Some ?l, _),
        Hp : path_blocked _ _ _ ?l = Raise _ |- _ =>
          assert (c = cl) by congruence; assert (n = nl) by congruence;
          subst c n;
          destruct (path_blocked_total (_new_board g) nl cl l Hkeys) as [? ?];
          [ intros x Hx;
            pose proof (valid_move_within _ _ _ _ _ _ _ Hv Hx);
            unfold on_board in *; lia
          | congruence ]
      end ].
Qed.

Transparent get_space_name_as_location path_blocked valid_move player_of_turn str_in dict_get _name_to_location_dict.

Lemma lookup_stable_key bd k :
  is_Some (bd !! k) -> In k stable_keys ->
  get_space_name_as_location bd k = Raise KeyError.
Proof.
  intros [v Hv] Hk. unfold get_space_name_as_location. rewrite Hv.
  cbn in Hk. destruct Hk as [<- | [<- | [<- | [<- | []]]]]; reflexivity.
Qed.

Lemma lookup_non_key bd k :
  bd !! k = None -> get_space_name_as_location bd k = Return None.
Proof. intros H. unfold get_space_name_as_location. now rewrite H. Qed.

Lemma stable_in_all_keys k : In k stable_keys -> In k all_keys.
Proof. intros H. unfold all_keys. apply in_or_app. now left. Qed.

Lemma not_key_lookup g k :
  reachable g -> ~ In k all_keys -> _new_board g !! k = None.
Proof.
  intros Hr Hk. destruct (reachable_store_inv g Hr) as (_ & _ & Hkeys).
  destruct (_new_board g !! k) eqn:E; [| reflexivity].
  exfalso. apply Hk, Hkeys. rewrite E. eauto.
Qed.

(** X21.  [get_space_name_as_location] in a reachable state: a
    square name gets its location, which lies on the board; a stable key
    raises [KeyError], because it is a key of the board dictionary and not
    of the name table; any other name gets [None]. *)
Theorem X21_space_name_lookup (g : ChessVar) (k : string) :
  reachable g ->
  (In k square_keys ->
   exists n, on_board n /\
     get_space_name_as_location (_new_board g) k = Return (Some n)) /\
  (In k stable_keys ->
   get_space_name_as_location (_new_board g) k = Raise KeyError) /\
  (~ In k all_keys ->
   get_space_name_as_location (_new_board g) k = Return None).
Proof.
  intros Hr. pose proof (inv_keys _ _ (reachable_board_inv g Hr)) as Hkeys.
  split; [| split].
  - intros Hk. destruct (In_is_square k Hk) as [n Hn]. exists n.
    split; [eapply dict_get_on_board, Hn |].
    apply get_space_name_as_location_key; [| exact Hn].
    apply Hkeys, square_in_all_keys, In_is_square, Hk.
  - intros Hk. apply lookup_stable_key; [| exact Hk].
    apply Hkeys, stable_in_all_keys, Hk.
  - intros Hk. apply lookup_non_key, not_key_lookup; assumption.
Qed.

Lemma first_key_of_None i d :
  ~ In i (map snd d) -> first_key_of i d = None.
Proof.
  induction d as [| [k v] d IH]; cbn; [reflexivity |].
  intros H. destruct (Z.eqb_spec i v) as [-> | Hne]; [tauto |].
  apply IH. tauto.
Qed.

(** X22.  [get_location_as_space_name] returns [None]
    exactly for the integers outside 0..63. *)
Theorem X22_location_name_bounds (i : Z) :
  get_location_as_space_name i = None <-> ~ on_board i.
Proof.
  split.
  - intros Hn Hb. destruct (location_name_key i Hb) as (s & Hs & _). congruence.
  - intros Hb. unfold get_location_as_space_name. apply first_key_of_None.
    replace (map snd _name_to_location_dict) with (py_range 0 64)
      by (vm_compute; reflexivity).
    intros Hin. apply list_elem_of_In, elem_of_py_range in Hin.
    apply Hb. unfold on_board. lia.
Qed.

Opaque get_space_name_as_location player_of_turn str_in String.eqb list_remove dict_get _name_to_location_dict.

(** X23.  [entry_fairy_piece] in a reachable state: with a square
    name it returns a boolean; with a stable key as entry square it raises
    [KeyError], with any other name [TypeError], and the state is
    unchanged in both cases. *)
Theorem X23_entry_answers (g : ChessVar) (t s : string) :
  reachable g ->
  (In s square_keys -> exists ans, fst (entry_fairy_piece t s g) = Return ans) /\
  (In s stable_keys -> entry_fairy_piece t s g = (Raise KeyError, g)) /\
  (~ In s all_keys -> entry_fairy_piece t s g = (Raise TypeError, g)).
Proof.
  intros Hr. pose proof (reachable_board_inv g Hr) as Hi.
  pose proof (inv_keys _ _ Hi) as Hkeys.
  split; [| split].
  - intros Is.
    destruct (In_is_square s Is) as [n Hn].
    assert (Ks : is_Some (_new_board g !! s)).
    { apply Hkeys, square_in_all_keys, In_is_square, Is. }
    pose proof (get_space_name_as_location_key _ _ _ Ks Hn) as Gs.
    destruct Ks as [vs Ks].
    destruct (inv_stable _ _ Hi) as (Kf & Kh & KF & KH).
    destruct (entry_fairy_piece t s g) as [[ans | e] g'] eqn:E; [eauto |].
    exfalso.
    unfold entry_fairy_piece, entry_block, enter, remove_fairy_piece, bind,
      gets, board_getitem, lift, raise, return_, ret, modify,
      set_space_occupant, increment_turn, bind, gets, raise, ret, modify,
      return_, ret in E.
    cbn in E.
    repeat (break_inner E; cbn in E); try discriminate E.
    all: repeat match goal with
         | Hb : _ && _ = true |- _ => apply andb_true_iff in Hb as [? ?]
         | Hs : str_in _ (_fairy_pieces_stable _) = true |- _ =>
             apply str_in_spec in Hs
         end.
    all: first
      [ congruence
      | match goal with
        | Hin : In ?k ?l, Hrm : list_remove ?k ?l = None |- _ =>
            destruct (list_remove_in k l Hin) as [? ?]; congruence
        end ].
  - intros Is.
    assert (G : get_space_name_as_location (_new_board g) s = Raise KeyError).
    { apply lookup_stable_key; [apply Hkeys, stable_in_all_keys, Is | exact Is]. }
    unfold entry_fairy_piece, bind, gets, lift. cbn.
    destruct (player_of_turn (_turn g)); rewrite G; reflexivity.
  - intros Is.
    assert (G : get_space_name_as_location (_new_board g) s = Return None).
    { apply lookup_non_key, not_key_lookup; assumption. }
    unfold entry_fairy_piece, bind, gets, lift, raise. cbn.
    destruct (player_of_turn (_turn g)); rewrite G; reflexivity.
Qed.

Transparent get_space_name_as_location player_of_turn str_in String.eqb list_remove dict_get _name_to_location_dict.

(** X24.  [Board.get_space_occupant] in a reachable state:
    for an occupied slot the colour and the name of the piece,
    concatenated without a separator; for an empty slot [None]; for every
    key of the board dictionary, stable keys included, some answer; for
    any other name [KeyError].  The state is never changed. *)
Theorem X24_get_space_occupant (g : ChessVar) (k : string) :
  reachable g ->
  (forall r, _new_board g !! k = Some (Some r) ->
     exists p, objects g !! r = Some p /\
       get_space_occupant k g
       = (Return (Some (color_name (get_color p) ++ get_name p)), g)) /\
  (_new_board g !! k = Some None ->
   get_space_occupant k g = (Return None, g)) /\
  (In k all_keys -> exists ans, get_space_occupant k g = (Return ans, g)) /\
  (~ In k all_keys -> get_space_occupant k g = (Raise KeyError, g)).
Proof.
  intros Hr. pose proof (inv_keys _ _ (reachable_board_inv g Hr)) as Hkeys.
  destruct (reachable_store_inv g Hr) as (Hlen & Hlt & _).
  assert (Hsome : forall r, _new_board g !! k = Some (Some r) ->
     exists p, objects g !! r = Some p /\
       get_space_occupant k g
       = (Return (Some (color_name (get_color p) ++ get_name p)), g)).
  { intros r Hk.
    assert (Hp : is_Some (objects g !! r)).
    { apply lookup_lt_is_Some. rewrite Hlen. eauto. }
    destruct Hp as [p Hp]. exists p. split; [exact Hp |].
    unfold get_space_occupant, bind, board_getitem, bind, gets, deref, bind,
      gets, ret. cbn. rewrite Hk. cbn. rewrite Hp. reflexivity. }
  assert (Hnone : _new_board g !! k = Some None ->
                  get_space_occupant k g = (Return None, g)).
  { intros Hk. unfold get_space_occupant, bind, board_getitem, bind, gets, ret.
    cbn. rewrite Hk. reflexivity. }
  split; [exact Hsome |]. split; [exact Hnone |]. split.
  - intros Hk. destruct (Hkeys k Hk) as [[r |] Hv].
    + destruct (Hsome r Hv) as (p & _ & E). eauto.
    + eauto.
  - intros Hk. pose proof (not_key_lookup g k Hr Hk) as Hn.
    unfold get_space_occupant, bind, board_getitem, bind, gets, raise.
    cbn. rewrite Hn. reflexivity.
Qed.

(** ** When a call is accepted *)


Lemma color_eqb_neq c1 c2 : c1 <> c2 -> color_eqb c1 c2 = false.
Proof. destruct c1, c2; cbn; congruence. Qed.

Opaque get_space_name_as_location path_blocked valid_move player_of_turn str_in dict_get _name_to_location_dict.


Transparent get_space_name_as_location path_blocked valid_move player_of_turn str_in dict_get _name_to_location_dict.


Opaque get_space_name_as_location player_of_turn str_in list_remove dict_get _name_to_location_dict.

(** The tests of [entry_fairy_piece], passed one after the other. *)
Lemma entry_accepts g t s n kind :
  dict_get s _name_to_location_dict = Some n ->
  _new_board g !! s = Some None ->
  is_Some (_new_board g !! t) ->
  ((player_of_turn (_turn g) = white /\ n > 47 /\
    In (t, kind) [("F", "falcon"); ("H", "hunter")]) \/
   (player_of_turn (_turn g) = black /\ n < 16 /\
    In (t, kind) [("f", "falcon"); ("h", "hunter")])) ->
  In kind (_fairy_pieces_stable (_player_1 g)) ->
  fst (entry_fairy_piece t s g) = Return true.
Proof.
  intros Hn Hs [v Ht] Hside Hk.
  assert (Gs : get_space_name_as_location (_new_board g) s = Return (Some n)).
  { apply get_space_name_as_location_key; [rewrite Hs; eauto | exact Hn]. }
  destruct (list_remove_in _ _ Hk) as [l' Hrm].
  apply str_in_spec in Hk.
  destruct (entry_fairy_piece t s g) as [res g'] eqn:E. cbn [fst].
  unfold entry_fairy_piece, entry_block, enter, remove_fairy_piece, bind, gets,
    board_getitem, lift, raise, return_, ret, modify, set_space_occupant,
    increment_turn, bind, gets, raise, ret, modify, return_, ret in E.
  rewrite Gs in E. unfold fairy_gate, truthy in E.
  destruct Hside as [(Hp & Hn' & Hin) | (Hp & Hn' & Hin)];
    rewrite Hp in E; cbn in Hin;
    destruct Hin as [[= <- <-] | [[= <- <-] | []]];
    cbn in E.
  all: try (destruct (Z.gtb_spec n 47); [| lia]).
  all: try (destruct (Z.ltb_spec n 16); [| lia]).
  all: cbn in E; rewrite ?Hs in E; cbn in E; rewrite ?Hk in E; cbn in E;
    rewrite ?Ht in E; cbn in E; rewrite ?Hrm in E; cbn in E.
  all: repeat (break_inner E; cbn in E); try (injection E as <- _; reflexivity).
  all: try congruence.
Qed.

Transparent get_space_name_as_location player_of_turn str_in list_remove dict_get _name_to_location_dict.

(** X26.  [entry_fairy_piece] answers [True] exactly when the
    entry square is empty and lies on the two home ranks of the colour to
    move (locations above 47 for white, below 16 for black), the code is
    one of that colour's two, and its kind is in [_player_1]'s stable
    list, for either colour.  Neither the captured lists nor the game
    state enter the condition. *)
Theorem X26_entry_accepts_iff (g : ChessVar) (t s : string) :
  fst (entry_fairy_piece t s g) = Return true
  <-> exists n kind,
        dict_get s _name_to_location_dict = Some n /\
        _new_board g !! s = Some None /\
        is_Some (_new_board g !! t) /\
        ((player_of_turn (_turn g) = white /\ n > 47 /\
          In (t, kind) [("F", "falcon"); ("H", "hunter")]) \/
         (player_of_turn (_turn g) = black /\ n < 16 /\
          In (t, kind) [("f", "falcon"); ("h", "hunter")])) /\
        In kind (_fairy_pieces_stable (_player_1 g)).
Proof.
  split.
  - destruct (entry_fairy_piece t s g) as [res g'] eqn:E. cbn. intros ->.
    apply entry_accepted in E.
    destruct E as (n & kind & v & l' & Hn & Hs & Hside & Ht & Hk & _).
    exists n, kind. rewrite Ht. eauto 10.
  - intros (n & kind & Hn & Hs & Ht & Hside & Hk).
    eapply entry_accepts; eassumption.
Qed.

(** ** The players' lists *)

Lemma list_remove_None x l : list_remove x l = None <-> ~ In x l.
Proof.
  induction l as [| y l IH]; cbn; [tauto |].
  destruct (String.eqb_spec y x) as [-> | Hne].
  - split; [discriminate | tauto].
  - destruct (list_remove x l) as [l0 |].
    + split; [discriminate |]. intros H.
      assert (H' : Some l0 = None) by (apply IH; tauto). discriminate H'.
    + split; [| reflexivity]. intros _ [H | H]; [congruence |].
      now apply (proj1 IH).
Qed.

Lemma list_remove_first x l l' :
  list_remove x l = Some l' ->
  exists l1 l2, l = (l1 ++ x :: l2)%list /\ l' = (l1 ++ l2)%list /\ ~ In x l1.
Proof.
  revert l'. induction l as [| y l IH]; intros l' H; cbn in H; [discriminate |].
  destruct (String.eqb_spec y x) as [-> | Hne].
  - injection H as <-. exists [], l. cbn. tauto.
  - destruct (list_remove x l) as [r |]; [| discriminate].
    injection H as <-. destruct (IH r eq_refl) as (l1 & l2 & -> & -> & Hn).
    exists (y :: l1), l2. cbn. intuition congruence.
Qed.

(** X28.  [Player.remove_active_piece] leaves the player
    unchanged when the name is not in the active list, and otherwise
    removes its first occurrence and nothing else. *)
Theorem X28_remove_active_piece (name : string) (p : Player) :
  (~ In name (_active_pieces p) -> remove_active_piece name p = p) /\
  (In name (_active_pieces p) ->
   exists l1 l2,
     _active_pieces p = (l1 ++ name :: l2)%list /\ ~ In name l1 /\
     remove_active_piece name p
     = mkPlayer (_name p) (_player_color p) (l1 ++ l2)%list
         (_captured_pieces p) (_fairy_pieces_stable p)).
Proof.
  unfold remove_active_piece. split.
  - intros H. apply list_remove_None in H. rewrite H. now destruct p.
  - intros H. destruct (list_remove name (_active_pieces p)) as [l' |] eqn:E.
    + destruct (list_remove_first _ _ _ E) as (l1 & l2 & H1 & -> & Hn).
      exists l1, l2. auto.
    + apply list_remove_None in E. contradiction.
Qed.

(** X28 at a concrete input. *)
Lemma X28_remove_active_piece_witness :
  remove_active_piece "rook" (_player_1 new_game)
  = mkPlayer "player_1" white
      ["pawn"; "pawn"; "pawn"; "pawn"; "pawn"; "pawn"; "pawn";
       "rook"; "knight"; "knight"; "bishop"; "bishop"; "king"; "queen"]
      [] ["hunter"; "falcon"] /\
  remove_active_piece "falcon" (_player_1 new_game) = _player_1 new_game.
Proof.
  split; [reflexivity |].
  apply (proj1 (X28_remove_active_piece "falcon" (_player_1 new_game))).
  intros H. apply str_in_spec in H. vm_compute in H. discriminate H.
Defined.

(** X29.  [Player.remove_fairy_piece] raises [ValueError] when
    the name is not in the stable list, and otherwise removes its first
    occurrence and nothing else. *)
Theorem X29_remove_fairy_piece (name : string) (p : Player) :
  (~ In name (_fairy_pieces_stable p) ->
   remove_fairy_piece name p = Raise ValueError) /\
  (In name (_fairy_pieces_stable p) ->
   exists l1 l2,
     _fairy_pieces_stable p = (l1 ++ name :: l2)%list /\ ~ In name l1 /\
     remove_fairy_piece name p
     = Return (mkPlayer (_name p) (_player_color p) (_active_pieces p)
                 (_captured_pieces p) (l1 ++ l2)%list)).
Proof.
  unfold remove_fairy_piece. split.
  - intros H. apply list_remove_None in H. now rewrite H.
  - intros H.
    destruct (list_remove name (_fairy_pieces_stable p)) as [l' |] eqn:E.
    + destruct (list_remove_first _ _ _ E) as (l1 & l2 & H1 & -> & Hn).
      exists l1, l2. auto.
    + apply list_remove_None in E. contradiction.
Qed.

(** X29 at a concrete input. *)
Lemma X29_remove_fairy_piece_witness :
  ~ In "rook" (_fairy_pieces_stable (_player_1 new_game)) /\
  remove_fairy_piece "rook" (_player_1 new_game) = Raise ValueError.
Proof.
  assert (H : ~ In "rook" (_fairy_pieces_stable (_player_1 new_game))).
  { intros H. apply str_in_spec in H. vm_compute in H. discriminate H. }
  split; [exact H |].
  exact (proj1 (X29_remove_fairy_piece "rook" (_player_1 new_game)) H).
Defined.

(** X30.  [Player.new_piece_set] adds fifteen names to the
    active list, seven of them 'pawn' ([range(1, 8)]), appends hunter and
    falcon to the stable list and leaves the captured list as it is. *)
Theorem X30_new_piece_set_counts (p : Player) (x : string) :
  count_occ string_dec (_active_pieces (new_piece_set p)) x
  = (count_occ string_dec (_active_pieces p) x
     + count_occ string_dec
         ["pawn"; "pawn"; "pawn"; "pawn"; "pawn"; "pawn"; "pawn";
          "rook"; "rook"; "knight"; "knight"; "bishop"; "bishop";
          "king"; "queen"] x)%nat /\
  length (_active_pieces (new_piece_set p))
  = (length (_active_pieces p) + 15)%nat /\
  _fairy_pieces_stable (new_piece_set p)
  = (_fairy_pieces_stable p ++ ["hunter"; "falcon"])%list /\
  _captured_pieces (new_piece_set p) = _captured_pieces p.
Proof.
  unfold new_piece_set. cbn [_active_pieces _fairy_pieces_stable
                               _captured_pieces].
  split; [rewrite count_occ_app; reflexivity |].
  split; [rewrite length_app; reflexivity |].
  split; reflexivity.
Qed.

(** X27.  An accepted [entry_fairy_piece] copies the content of
    the stable slot of the code onto the entry square and changes no other
    slot; it removes the first occurrence of the kind from [_player_1]'s
    stable list and leaves [_player_1]'s other lists, [_player_2], the
    piece objects and the piece counter as they are. *)
Theorem X27_entry_effects (g : ChessVar) (t s : string) :
  fst (entry_fairy_piece t s g) = Return true ->
  _new_board (snd (entry_fairy_piece t s g)) !! s = _new_board g !! t /\
  (forall k, k <> s ->
     _new_board (snd (entry_fairy_piece t s g)) !! k = _new_board g !! k) /\
  objects (snd (entry_fairy_piece t s g)) = objects g /\
  _piece_generation_counter (snd (entry_fairy_piece t s g))
    = _piece_generation_counter g /\
  _player_2 (snd (entry_fairy_piece t s g)) = _player_2 g /\
  _active_pieces (_player_1 (snd (entry_fairy_piece t s g)))
    = _active_pieces (_player_1 g) /\
  _captured_pieces (_player_1 (snd (entry_fairy_piece t s g)))
    = _captured_pieces (_player_1 g) /\
  exists kind,
    In (t, kind) fairy_codes /\
    list_remove kind (_fairy_pieces_stable (_player_1 g))
    = Some (_fairy_pieces_stable (_player_1 (snd (entry_fairy_piece t s g)))).
Proof.
  destruct (entry_fairy_piece t s g) as [res g'] eqn:E. cbn. intros ->.
  apply entry_accepted in E.
  destruct E as (n & kind & v & l' & Hd & Hs & Hside & Ht & _ & Hrm & Hb & Hp1 &
                 Hp2 & Ho & _ & Hc & _).
  rewrite Hb, Hp1. cbn [_active_pieces _captured_pieces _fairy_pieces_stable].
  split; [rewrite lookup_insert_eq; congruence |].
  split; [intros k Hk; apply lookup_insert_ne; congruence |].
  do 5 (split; [first [assumption | reflexivity] |]).
  exists kind. split; [| assumption].
  unfold fairy_codes.
  destruct Hside as [(_ & _ & Hin) | (_ & _ & Hin)]; cbn in Hin |- *; tauto.
Qed.

(** X27 at a concrete input. *)
Lemma X27_entry_effects_witness :
  fst (entry_fairy_piece "H" "a2" a_pawns_advanced) = Return true /\
  _new_board (snd (entry_fairy_piece "H" "a2" a_pawns_advanced)) !! "a2"
  = _new_board a_pawns_advanced !! "H".
Proof.
  assert (H : fst (entry_fairy_piece "H" "a2" a_pawns_advanced) = Return true)
    by (vm_compute; reflexivity).
  split; [exact H |].
  exact (proj1 (X27_entry_effects a_pawns_advanced "H" "a2" H)).
Defined.

(** X13 at a concrete input. *)
Lemma X13_accepted_move_witness :
  fst (make_move "a2" "a4" new_game) = Return true /\
  _new_board (snd (make_move "a2" "a4" new_game)) !! "a2" = Some None.
Proof.
  assert (H : fst (make_move "a2" "a4" new_game) = Return true)
    by (vm_compute; reflexivity).
  split; [exact H |].
  destruct (X13_accepted_move new_game "a2" "a4" H)
    as (r & self & _ & _ & _ & _ & _ & _ & _ & _ & _ & Ha & _).
  exact Ha.
Defined.


(** X15 at a concrete input. *)
Lemma X15_outcome_reflects_kings_witness :
  reachable king_taken /\
  (_game_state king_taken = WHITE_WON
   <-> In "king" (_captured_pieces (_player_2 king_taken))).
Proof.
  assert (H : reachable king_taken)
    by (unfold king_taken; apply reachable_play, reachable_new).
  split; [exact H |].
  exact (proj1 (X15_outcome_reflects_kings king_taken H)).
Defined.

(** X16 at a concrete input. *)
Lemma X16_outcome_terminal_witness :
  reachable king_taken /\ _game_state king_taken <> UNFINISHED /\
  _game_state (play [EntryFairyPiece "f" "a7"; MakeMove "e2" "e4"] king_taken)
  = _game_state king_taken.
Proof.
  assert (H : reachable king_taken)
    by (unfold king_taken; apply reachable_play, reachable_new).
  assert (Hd : _game_state king_taken <> UNFINISHED)
    by (vm_compute; discriminate).
  split; [exact H |]. split; [exact Hd |].
  exact (proj1 (X16_outcome_terminal king_taken
                  [EntryFairyPiece "f" "a7"; MakeMove "e2" "e4"] H Hd)).
Defined.

(** X17 at a concrete input. *)
Lemma X17_fairy_kind_enters_once_witness :
  reachable a_pawns_advanced /\
  fst (entry_fairy_piece "H" "a2" a_pawns_advanced) = Return true /\
  fst (entry_fairy_piece "h" "a7"
         (play [] (snd (entry_fairy_piece "H" "a2" a_pawns_advanced))))
  <> Return true.
Proof.
  assert (H : reachable a_pawns_advanced)
    by (unfold a_pawns_advanced; apply reachable_play, reachable_new).
  assert (He : fst (entry_fairy_piece "H" "a2" a_pawns_advanced) = Return true)
    by (vm_compute; reflexivity).
  split; [exact H |]. split; [exact He |].
  apply (X17_fairy_kind_enters_once a_pawns_advanced "H" "a2" "h" "a7" "hunter"
           [] H); [| | exact He]; unfold fairy_codes; cbn; tauto.
Defined.



(** X20 at a concrete input. *)
Lemma X20_make_move_never_raises_witness :
  reachable knight_on_c3 /\ In "c3" square_keys /\ In "c3" square_keys /\
  exists ans, fst (make_move "c3" "c3" knight_on_c3) = Return ans.
Proof.
  assert (H : reachable knight_on_c3)
    by (unfold knight_on_c3; apply reachable_play, reachable_new).
  assert (Hk : In "c3" square_keys)
    by (apply str_in_spec; vm_compute; reflexivity).
  split; [exact H |]. split; [exact Hk |]. split; [exact Hk |].
  exact (X20_make_move_never_raises knight_on_c3 "c3" "c3" H Hk Hk).
Defined.

(** X21 at a concrete input. *)
Lemma X21_space_name_lookup_witness :
  reachable new_game /\ In "F" stable_keys /\
  get_space_name_as_location (_new_board new_game) "F" = Raise KeyError.
Proof.
  assert (Hk : In "F" stable_keys)
    by (apply str_in_spec; vm_compute; reflexivity).
  split; [exact reachable_new |]. split; [exact Hk |].
  exact (proj1 (proj2 (X21_space_name_lookup new_game "F" reachable_new)) Hk).
Defined.

(** X22 at a concrete input. *)
Lemma X22_location_name_bounds_witness :
  ~ on_board 64 /\ get_location_as_space_name 64 = None.
Proof.
  assert (H : ~ on_board 64) by (unfold on_board; lia).
  split; [exact H |].
  exact (proj2 (X22_location_name_bounds 64) H).
Defined.

(** X23 at a concrete input. *)
Lemma X23_entry_answers_witness :
  reachable new_game /\ In "H" stable_keys /\
  entry_fairy_piece "H" "H" new_game = (Raise KeyError, new_game).
Proof.
  assert (Hk : In "H" stable_keys)
    by (apply str_in_spec; vm_compute; reflexivity).
  split; [exact reachable_new |]. split; [exact Hk |].
  exact (proj1 (proj2 (X23_entry_answers new_game "H" "H" reachable_new)) Hk).
Defined.

(** X24 at a concrete input. *)
Lemma X24_get_space_occupant_witness :
  reachable new_game /\ ~ In "e9" all_keys /\
  get_space_occupant "e9" new_game = (Raise KeyError, new_game).
Proof.
  assert (Hk : ~ In "e9" all_keys).
  { intros H. apply str_in_spec in H. vm_compute in H. discriminate H. }
  split; [exact reachable_new |]. split; [exact Hk |].
  exact (proj2 (proj2 (proj2
           (X24_get_space_occupant new_game "e9" reachable_new))) Hk).
Defined.


(** X26 at a concrete input. *)
Lemma X26_entry_accepts_iff_witness :
  fst (entry_fairy_piece "H" "a2" a_pawns_advanced) = Return true /\
  exists n, dict_get "a2" _name_to_location_dict = Some n /\ n > 47.
Proof.
  assert (H : fst (entry_fairy_piece "H" "a2" a_pawns_advanced) = Return true)
    by (vm_compute; reflexivity).
  split; [exact H |].
  destruct (proj1 (X26_entry_accepts_iff a_pawns_advanced "H" "a2") H)
    as (n & kind & Hn & _ & _ & Hside & _).
  exists n. split; [exact Hn |].
  destruct Hside as [(_ & Hgt & _) | (_ & _ & Hin)]; [exact Hgt |].
  cbn in Hin. destruct Hin as [Hin | [Hin | []]]; discriminate Hin.
Defined.
